(** * Thrifty carrier detector ([thrifty/carrier_detect.py]) and settings
      loader ([thrifty/settings.py])

    A shallow embedding of the carrier-presence detector and the proofs of
    its specification, followed by the config file parser and the merging
    of defaults, config file and arguments of the settings loader.  Python integers are [Z]; a raised exception is a
    value of [result]; the numeric kernel is written once over a scalar
    interface and read at two instances: IEEE binary64 ([float], the
    arithmetic numpy executes) and the real numbers ([R], its exact
    reading). *)

From Stdlib Require Import ZArith List Bool Lia Floats Reals Lra.
From Stdlib Require Ascii String.
Import ListNotations.

Local Open Scope Z_scope.

(** ** Exceptions *)

(** Both failures are Python [ValueError]s: the one [fft_range_index]
    raises, carrying the two bounds its message prints, and the one
    [np.argmax] raises on an empty sequence. *)
Inductive exn : Type :=
| FrequencyWindowOutOfRange (start stop : Z)
| ArgmaxOfEmptySequence.

Inductive result (A : Type) : Type :=
| Ok (a : A)
| Raise (e : exn).

Arguments Ok {A} a.
Arguments Raise {A} e.

Definition bind {A B : Type} (r : result A) (k : A -> result B) : result B :=
  match r with
  | Ok a => k a
  | Raise e => Raise e
  end.

Notation "x <- r ;; k" := (bind r (fun x => k))
  (at level 61, r at next level, right associativity).
Notation "' p <- r ;; k" := (bind r (fun x => let p := x in k))
  (at level 61, p pattern, r at next level, right associativity).

Definition raises {A : Type} (r : result A) : bool :=
  match r with
  | Ok _ => false
  | Raise _ => true
  end.

(** ** Window selector *)

(** [fft_range_index(start, stop, length)], statement by statement. *)
Definition fft_range_index (start stop length : Z) : result (Z * Z) :=
  if (Z.abs start >=? length) || (Z.abs stop >=? length)
  then Raise (FrequencyWindowOutOfRange start stop)
  else
    let '(start, stop) :=
      if (start <? 0) && (stop >=? 0)
      then (length + start, length + stop)
      else (start, stop) in
    let start := if start <? 0 then length + start else start in
    let stop := if stop <? 0 then length + stop else stop in
    let '(start, stop) :=
      if stop <? start then (stop, start) else (start, stop) in
    Ok (start, stop).

(** Python's [range(a, b)]. *)
Definition py_range (a b : Z) : list Z :=
  map (fun k => a + Z.of_nat k) (seq 0 (Z.to_nat (b - a))).

(** ** Scalars *)

(** What the detector asks of an array element: conversion from a Python
    integer, the four operations, square root, the comparisons and the
    NaN test [np.argmax] makes. *)
Class Scalar (F : Type) : Type := {
  f_of_Z : Z -> F;
  f_add : F -> F -> F;
  f_sub : F -> F -> F;
  f_mul : F -> F -> F;
  f_div : F -> F -> F;
  f_sqrt : F -> F;
  f_eqb : F -> F -> bool;
  f_ltb : F -> F -> bool;
  f_leb : F -> F -> bool;
  f_isnan : F -> bool
}.

(** binary64: the conversion rounds to nearest even, as Python's
    [float(int)] does. *)
#[export] Instance float_Scalar : Scalar float := {
  f_of_Z z := SF2Prim (binary_normalize prec emax z 0 false);
  f_add := PrimFloat.add;
  f_sub := PrimFloat.sub;
  f_mul := PrimFloat.mul;
  f_div := PrimFloat.div;
  f_sqrt := PrimFloat.sqrt;
  f_eqb := PrimFloat.eqb;
  f_ltb := PrimFloat.ltb;
  f_leb := PrimFloat.leb;
  f_isnan := PrimFloat.is_nan
}.

(** Exact arithmetic: no NaN, decidable order by [Rle_dec] and friends.
    [sqrt] and [Rdiv] are total, where numpy returns NaN or an infinity for
    a negative radicand or a zero divisor: the statements read at this
    instance keep their radicands non-negative and their divisors
    positive. *)
#[export] Instance R_Scalar : Scalar R := {
  f_of_Z := IZR;
  f_add := Rplus;
  f_sub := Rminus;
  f_mul := Rmult;
  f_div := Rdiv;
  f_sqrt := sqrt;
  f_eqb x y := if Req_dec_T x y then true else false;
  f_ltb x y := if Rlt_dec x y then true else false;
  f_leb x y := if Rle_dec x y then true else false;
  f_isnan _ := false
}.

Section Detector.

Context {F : Type} `{Scalar F}.

(** [x**2], as the product [x * x] (for a scalar numpy calls [pow], which
    can differ from the rounded product in the last bit). *)
Definition square (x : F) : F := f_mul x x.

(** Truth value of a number in a condition: [x != 0]. *)
Definition truthy (x : F) : bool := negb (f_eqb x (f_of_Z 0)).

(** [np.sum], accumulated left to right from zero (numpy adds in another
    order from 8 elements on; no statement read in binary64 rests on the
    rounding of a sum). *)
Definition np_sum (xs : list F) : F := fold_left f_add xs (f_of_Z 0).

Definition len (xs : list F) : Z := Z.of_nat (length xs).

Definition np_mean (xs : list F) : F := f_div (np_sum xs) (f_of_Z (len xs)).

(** [np.std]: the population standard deviation. *)
Definition np_std (xs : list F) : F :=
  let m := np_mean xs in
  f_sqrt (np_mean (map (fun x => square (f_sub x m)) xs)).

(** The scan of [np.argmax]: [mp] is the running maximum found at index
    [best], [i] the index of the head of [xs].  A later element replaces
    the maximum unless it is [<=] it, and a NaN ends the scan. *)
Fixpoint argmax_scan (mp : F) (best i : Z) (xs : list F) : Z :=
  match xs with
  | [] => best
  | x :: xs' =>
      if f_leb x mp then argmax_scan mp best (i + 1) xs'
      else if f_isnan x then i
      else argmax_scan x i (i + 1) xs'
  end.

Definition np_argmax (xs : list F) : result Z :=
  match xs with
  | [] => Raise ArgmaxOfEmptySequence
  | x :: xs' => Ok (if f_isnan x then 0 else argmax_scan x 0 1 xs')
  end.

(** [array[i]] for an index in range. *)
Definition item (xs : list F) (i : Z) : F := nth (Z.to_nat i) xs (f_of_Z 0).

(** [np.take(array, indices, mode='wrap')] *)
Definition np_take_wrap (array : list F) (indices : list Z) : list F :=
  map (fun i => item array (i mod len array)) indices.

(** [scipy.signal.lfilter(b, 1, x)], the feed-forward difference equation
    [y[n] = b[0]*x[n] + b[1]*x[n-1] + ...] with zero initial state; the
    order in which scipy adds the taps is not modelled. *)
Definition lfilter (b x : list F) : list F :=
  map (fun n =>
         np_sum (map (fun k => f_mul (nth k b (f_of_Z 0))
                                     (nth (n - k) x (f_of_Z 0)))
                     (seq 0 (Nat.min (S n) (length b)))))
      (seq 0 (length x)).

Definition _estimate_noise (fft_mag : list F) (peak_mag : F) : F :=
  let fft_energy := np_sum (map square fft_mag) in
  let peak_power := square peak_mag in
  let noise_power :=
    f_div (f_sub fft_energy (f_mul (f_of_Z 2) peak_power))
          (f_of_Z (len fft_mag - 1)) in
  f_sqrt noise_power.

Definition _calculate_threshold
  (fft_mag : list F) (thresh_coeffs : F * F * F) (noise_rms : F) : F :=
  let '(thresh_const, thresh_snr, thresh_stddev) := thresh_coeffs in
  let stddev := if truthy thresh_stddev then np_std fft_mag else f_of_Z 0 in
  let thresh :=
    f_add (f_add thresh_const (f_mul thresh_snr (square noise_rms)))
          (f_mul thresh_stddev (square stddev)) in
  f_sqrt thresh.

Definition _get_window (array : list F) (window : option (Z * Z))
  : result (list F * Z) :=
  let '(start, stop) :=
    match window with
    | None => (0, -1)
    | Some w => w
    end in
  '(start_idx, stop_idx) <- fft_range_index start stop (len array) ;;
  let selection := np_take_wrap array (py_range start_idx (stop_idx + 1)) in
  Ok (selection, start_idx).

Definition _filter (fft_mag weights : list F) : result (list F * Z) :=
  am <- np_argmax weights ;;
  let delay := len weights - am - 1 in
  let coeffs := map square (rev weights) in
  let filtered := map f_sqrt (lfilter coeffs (map square fft_mag)) in
  Ok (filtered, delay).

Definition _window_peak
  (fft_mag : list F) (window : option (Z * Z)) (peak_filter : option (list F))
  : result (Z * F) :=
  '(mags, start_idx) <- _get_window fft_mag window ;;
  '(mags, filter_delay) <-
     match peak_filter with
     | Some weights => _filter mags weights
     | None => Ok (mags, 0)
     end ;;
  max_idx <- np_argmax mags ;;
  let peak_mag := item mags max_idx in
  let peak_idx := max_idx - filter_delay in
  let peak_idx := peak_idx + start_idx in
  let peak_idx :=
    if peak_idx >? len fft_mag then peak_idx - len fft_mag else peak_idx in
  Ok (peak_idx, peak_mag).

Definition detect
  (fft_mag : list F) (thresh_coeffs : F * F * F)
  (window : option (Z * Z)) (peak_filter : option (list F))
  : result (bool * Z * F * F) :=
  '(peak_idx, peak_mag) <- _window_peak fft_mag window peak_filter ;;
  let noise_rms := _estimate_noise fft_mag peak_mag in
  let threshold := _calculate_threshold fft_mag thresh_coeffs noise_rms in
  let detected := f_ltb threshold peak_mag in
  Ok (detected, peak_idx, peak_mag, noise_rms).

End Detector.

(** ** Definitions the statements use *)

(** The window selector as the specification words it: each negative bound
    is converted on its own, then the pair is ordered. *)
Definition resolve_range_spec (start stop length : Z) : result (Z * Z) :=
  if (Z.abs start >=? length) || (Z.abs stop >=? length)
  then Raise (FrequencyWindowOutOfRange start stop)
  else
    let start_idx := if start <? 0 then length + start else start in
    let stop_idx := if stop <? 0 then length + stop else stop in
    if stop_idx <? start_idx
    then Ok (stop_idx, start_idx)
    else Ok (start_idx, stop_idx).

(** The window [_get_window] resolves: the whole spectrum by default. *)
Definition window_bounds (window : option (Z * Z)) : Z * Z :=
  match window with
  | None => (0, -1)
  | Some w => w
  end.


(** The local variable [noise_power] of [_estimate_noise], in binary64. *)
Definition noise_power (fft_mag : list float) (peak_mag : float) : float :=
  PrimFloat.div
    (PrimFloat.sub (np_sum (map square fft_mag))
                   (PrimFloat.mul 2%float (PrimFloat.mul peak_mag peak_mag)))
    (f_of_Z (len fft_mag - 1)).


(** A spectrum whose single non-zero bin squares to the least positive
    binary64 number. *)
Definition faint_spectrum : list float :=
  [0x1p-537; 0; 0; 0; 0]%float.


(** NaN, as the specification of the primitive operations sees it. *)
Definition sf_nan (x : float) : Prop := Prim2SF x = S754_nan.

(** A spectrum that is zero except for the magnitude [A] at bin [k], with
    [m] bins after it. *)
Definition impulse {F : Type} `{Scalar F} (k m : nat) (A : F) : list F :=
  repeat (f_of_Z 0) k ++ A :: repeat (f_of_Z 0) m.

(** ** Settings loader ([thrifty/settings.py]) *)

Module Settings.

Import Ascii String.

(** A Python string, as the list of its characters. *)
Definition str : Type := list ascii.

Definition CONFIG_COMMENT_CHAR : ascii := "#".
Definition CONFIG_DELIMITER : ascii := ":".

(** The exceptions of the module, [ValueError] standing for whatever a
    setting's parser raises on a string it cannot convert; the last two
    are Python's own, for a failed unpacking and a failed dict lookup. *)
Inductive error : Type :=
| ConfigSyntaxError (line_no : Z) (msg : str)
| SettingKeyError (msg : str)
| ValueError
| UnpackError
| KeyError (key : str).

Inductive outcome (A : Type) : Type :=
| Return (a : A)
| Throw (e : error).

Arguments Return {A} a.
Arguments Throw {A} e.

Definition and_then {A B : Type} (r : outcome A) (k : A -> outcome B)
  : outcome B :=
  match r with
  | Return a => k a
  | Throw e => Throw e
  end.

Fixpoint str_eqb (a b : str) : bool :=
  match a, b with
  | [], [] => true
  | x :: a', y :: b' => Ascii.eqb x y && str_eqb a' b'
  | _, _ => false
  end.

(** [c in line] *)
Definition contains (c : ascii) (line : str) : bool :=
  existsb (Ascii.eqb c) line.

(** [line.split(c, 1)]: one part when [c] does not occur, two otherwise. *)
Fixpoint split1 (c : ascii) (line : str) : list str :=
  match line with
  | [] => [[]]
  | x :: rest =>
      if Ascii.eqb x c then [[]; rest]
      else match split1 c rest with
           | part :: parts => (x :: part) :: parts
           | [] => []
           end
  end.

(** A dict with string keys: each key once, in insertion order (no
    statement below depends on the order). *)
Definition dict (V : Type) : Type := list (str * V).

Fixpoint dict_get {V : Type} (key : str) (d : dict V) : option V :=
  match d with
  | [] => None
  | (k, v) :: d' => if str_eqb key k then Some v else dict_get key d'
  end.

(** [key in d] *)
Definition dict_mem {V : Type} (key : str) (d : dict V) : bool :=
  match dict_get key d with
  | Some _ => true
  | None => false
  end.

(** [d[key] = value] *)
Fixpoint dict_set {V : Type} (key : str) (value : V) (d : dict V) : dict V :=
  match d with
  | [] => [(key, value)]
  | (k, v) :: d' =>
      if str_eqb key k then (k, value) :: d'
      else (k, v) :: dict_set key value d'
  end.

(** [d.update(other)] *)
Definition dict_update {V : Type} (d other : dict V) : dict V :=
  fold_left (fun acc kv => dict_set (fst kv) (snd kv) acc) other d.

Section Strings.

(** The characters [strip] removes.  Python's set depends on the string
    type (six for a byte string, more for a unicode one), so the test is
    left open. *)
Variable is_space : ascii -> bool.

Fixpoint lstrip (s : str) : str :=
  match s with
  | [] => []
  | x :: s' => if is_space x then lstrip s' else s
  end.

Definition rstrip (s : str) : str := rev (lstrip (rev s)).

(** [s.strip()] *)
Definition strip (s : str) : str := rstrip (lstrip s).

(** The body of the loop of [_parse_config] on the line numbered
    [line_no] (from 0), [settings] being the dict built so far. *)
Definition parse_line (line_no : Z) (line : str) (settings : dict str)
  : outcome (dict str) :=
  and_then
    (if contains CONFIG_COMMENT_CHAR line
     then match split1 CONFIG_COMMENT_CHAR line with
          | [line'; _] => Return line'
          | _ => Throw UnpackError
          end
     else Return line)
    (fun line =>
       if (List.length (strip line) =? 0)%nat then Return settings
       else if negb (contains CONFIG_DELIMITER line)
       then Throw (ConfigSyntaxError (line_no + 1)
                     (list_ascii_of_string "No delimiter found"))
       else match split1 CONFIG_DELIMITER line with
            | [key; value] =>
                Return (dict_set (strip key) (strip value) settings)
            | _ => Throw UnpackError
            end).

(** [for line_no, line in enumerate(config_file)], started at [line_no]. *)
Fixpoint parse_lines (line_no : Z) (config_file : list str)
  (settings : dict str) : outcome (dict str) :=
  match config_file with
  | [] => Return settings
  | line :: rest =>
      and_then (parse_line line_no line settings)
               (parse_lines (line_no + 1) rest)
  end.

(** [_parse_config(config_file)], the file as the list of its lines. *)
Definition _parse_config (config_file : list str) : outcome (dict str) :=
  parse_lines 0 config_file [].

End Strings.

(** [Definition = namedtuple('SettingDefinition', 'args parser default
    description')]: the parser returns [None] where the Python one
    raises. *)
Record SettingDefinition (V : Type) : Type := {
  args : list str;
  parser : str -> option V;
  default : option str;
  description : str
}.

Arguments args {V} _.
Arguments parser {V} _.
Arguments default {V} _.
Arguments description {V} _.

Section Load.

Variable is_space : ascii -> bool.
Context {V : Type}.

(** [{key: setting.default for key, setting in definitions.iteritems()
      if setting.default is not None}] *)
Definition default_strings (definitions : dict (SettingDefinition V))
  : dict str :=
  fold_left
    (fun acc kd =>
       match default (snd kd) with
       | Some s => dict_set (fst kd) s acc
       | None => acc
       end)
    definitions [].

(** [for key in d: if key not in definitions: raise SettingKeyError(...)] *)
Fixpoint check_keys (keys : list str) (definitions : dict (SettingDefinition V))
  : outcome unit :=
  match keys with
  | [] => Return tt
  | key :: rest =>
      if negb (dict_mem key definitions)
      then Throw (SettingKeyError
                    (list_ascii_of_string "Unknown setting: " ++ key))
      else check_keys rest definitions
  end.

(** [{k: definitions[k].parser(v) for k, v in strings.iteritems()}] *)
Fixpoint parse_values (items : list (str * str))
  (definitions : dict (SettingDefinition V)) (acc : dict V)
  : outcome (dict V) :=
  match items with
  | [] => Return acc
  | (k, v) :: rest =>
      match dict_get k definitions with
      | None => Throw (KeyError k)
      | Some setting =>
          match parser setting v with
          | None => Throw ValueError
          | Some value => parse_values rest definitions (dict_set k value acc)
          end
      end
  end.

(** [load(args, config_file, definitions)] with the definitions given. *)
Definition load (args : option (dict str)) (config_file : option (list str))
  (definitions : dict (SettingDefinition V)) : outcome (dict V) :=
  let strings := default_strings definitions in
  and_then
    (match config_file with
     | Some file =>
         and_then (_parse_config is_space file) (fun config_settings =>
         and_then (check_keys (map fst config_settings) definitions) (fun _ =>
         Return (dict_update strings config_settings)))
     | None => Return strings
     end)
    (fun strings =>
  and_then
    (match args with
     | Some args =>
         and_then (check_keys (map fst args) definitions) (fun _ =>
         Return (dict_update strings args))
     | None => Return strings
     end)
    (fun strings =>
  parse_values strings definitions [])).

End Load.

(** Python's whitespace of a byte string. *)
Definition ascii_space (c : ascii) : bool :=
  match nat_of_ascii c with
  | 9%nat | 10%nat | 11%nat | 12%nat | 13%nat | 32%nat => true
  | _ => false
  end.

(** The part of a config line before its first comment character. *)
Definition code_part (line : str) : str :=
  match split1 CONFIG_COMMENT_CHAR line with
  | part :: _ => part
  | [] => []
  end.

(** A line [_parse_config] passes over: nothing but whitespace before
    the comment, if any. *)
Definition is_blank (is_space : ascii -> bool) (line : str)
  : bool :=
  (List.length (strip is_space (code_part line)) =? 0)%nat.

(** A line with the delimiter before the comment, if any. *)
Definition has_delimiter (line : str) : bool :=
  contains CONFIG_DELIMITER (code_part line).

(** The key and the value a line with a delimiter assigns. *)
Definition assignment (is_space : ascii -> bool) (line : str)
  : str * str :=
  match split1 CONFIG_DELIMITER (code_part line) with
  | key :: value :: _ =>
      (strip is_space key, strip is_space value)
  | _ => ([], [])
  end.

(** The message of the syntax error. *)
Definition no_delimiter_found : str :=
  list_ascii_of_string "No delimiter found".

(** The string [load] parses for a key: the argument, else the value of
    the config file, else the default of the setting. *)
Definition effective_string {V : Type} (key : str)
  (args config : dict str) (setting : SettingDefinition V) : option str :=
  match dict_get key args with
  | Some s => Some s
  | None =>
      match dict_get key config with
      | Some s => Some s
      | None => default setting
      end
  end.

(** An absent dict read as an empty one. *)
Definition or_empty {V : Type} (d : option (dict V)) : dict V :=
  match d with
  | Some d => d
  | None => []
  end.

(** The message of the error for an unknown setting. *)
Definition unknown_setting (key : str) : str :=
  list_ascii_of_string "Unknown setting: " ++ key.

(** What holds of every entry of a parsed config. *)
Definition well_formed_entry (is_space : ascii -> bool) (kv : str * str)
  : Prop :=
  strip is_space (fst kv) = fst kv /\
  strip is_space (snd kv) = snd kv /\
  contains CONFIG_DELIMITER (fst kv) = false /\
  contains CONFIG_COMMENT_CHAR (fst kv) = false /\
  contains CONFIG_COMMENT_CHAR (snd kv) = false.

(** A config line as read from a file: the text and its newline. *)
Definition config_line (text : string) : str :=
  list_ascii_of_string text ++ [ascii_of_nat 10].

(** A small config file, and one with a line that lacks its delimiter. *)
Definition sample_config : list str :=
  map config_line
    ["# receiver"; "sample_rate: 2.4e6  # sps"; ""; "block.size : 4096";
     "sample_rate:2.2e6"]%string.

Definition broken_config : list str :=
  map config_line ["# receiver"; "sample_rate: 2.4e6"; "block.size 4096"]%string.

(** A parser that accepts the strings made of decimal digits. *)
Definition digits (s : str) : option str :=
  if forallb (fun c => (48 <=? nat_of_ascii c)%nat && (nat_of_ascii c <=? 57)%nat) s
  then Some s else None.

(** Two settings in the format of [DEFINITIONS]. *)
Definition sample_definitions : dict (SettingDefinition str) :=
  [(list_ascii_of_string "sample_rate",
    {| args := map list_ascii_of_string ["--sample-rate"; "-s"]%string;
       parser := Some;
       default := Some (list_ascii_of_string "2.2e6");
       description := list_ascii_of_string "Sample rate (sps)" |});
   (list_ascii_of_string "block.size",
    {| args := map list_ascii_of_string ["--block-size"; "-b"]%string;
       parser := digits;
       default := Some (list_ascii_of_string "8192");
       description := list_ascii_of_string "Length of fixed-sized blocks" |})].

End Settings.

(** * Proofs *)

(** ** Window selector *)

(** Case analysis on every integer comparison of the goal. *)
Ltac break_cmp :=
  repeat (match goal with
          | |- context [Z.geb ?a ?b] => rewrite (Z.geb_leb a b)
          | |- context [Z.gtb ?a ?b] => rewrite (Z.gtb_ltb a b)
          | |- context [Z.ltb ?a ?b] => destruct (Z.ltb_spec a b)
          | |- context [Z.leb ?a ?b] => destruct (Z.leb_spec a b)
          end;
          cbn [andb orb negb]; cbv beta iota zeta).

Lemma range_check_passes (start stop length : Z) :
  Z.abs start < length -> Z.abs stop < length ->
  (Z.abs start >=? length) || (Z.abs stop >=? length) = false.
Proof. intros Hs He. break_cmp; solve [reflexivity | lia]. Qed.

Lemma range_check_fails (start stop length : Z) :
  Z.abs start >= length \/ Z.abs stop >= length ->
  (Z.abs start >=? length) || (Z.abs stop >=? length) = true.
Proof. intros Hor. break_cmp; solve [reflexivity | lia]. Qed.

(** The result of [fft_range_index] on bounds that pass the range check:
    a window that starts at a negative bin and stops at a non-negative one
    is moved up by [length] as a whole, any other one has its negative
    bounds converted one by one and is then ordered. *)
Lemma fft_range_index_cases (start stop length : Z) :
  Z.abs start < length -> Z.abs stop < length ->
  fft_range_index start stop length =
    if (start <? 0) && (0 <=? stop)
    then Ok (length + start, length + stop)
    else resolve_range_spec start stop length.
Proof.
  intros Hs He. unfold fft_range_index, resolve_range_spec.
  rewrite (range_check_passes _ _ _ Hs He).
  break_cmp; solve [reflexivity | lia].
Qed.

(** Bounds within the range resolve to an ordered pair from a
    non-negative start. *)
Lemma fft_range_index_returns (start stop length : Z) :
  Z.abs start < length -> Z.abs stop < length ->
  exists a b,
    fft_range_index start stop length = Ok (a, b) /\ a <= b /\ 0 <= a.
Proof.
  intros Hs He. rewrite (fft_range_index_cases _ _ _ Hs He).
  unfold resolve_range_spec. rewrite (range_check_passes _ _ _ Hs He).
  break_cmp; (eexists; eexists; split; [reflexivity | lia]).
Qed.

(** C1, as stated, fails: on the window (-10, 10) of a 1024-bin spectrum
    the code returns (1014, 1034), having added the length to the
    non-negative stop as well, where the bound-by-bound conversion followed
    by the swap gives (10, 1014). *)
Lemma fft_range_index_not_bound_by_bound :
  Z.abs (-10) < 1024 /\ Z.abs 10 < 1024 /\
  fft_range_index (-10) 10 1024 = Ok (1014, 1034) /\
  resolve_range_spec (-10) 10 1024 = Ok (10, 1014) /\
  fft_range_index (-10) 10 1024 <> resolve_range_spec (-10) 10 1024.
Proof.
  repeat split; try reflexivity; try lia.
  vm_compute. discriminate.
Qed.

(** C1, amended: for bounds within the range, a window with [start < 0]
    and [stop >= 0] has the length added to both bounds and is not swapped;
    every other window has each negative bound replaced by [length + bound],
    the non-negative ones left as they are, and the two results swapped
    exactly when the resolved stop is below the resolved start. *)
Theorem fft_range_index_resolved (start stop length : Z) :
  Z.abs start < length -> Z.abs stop < length ->
  (start < 0 <= stop ->
   fft_range_index start stop length = Ok (length + start, length + stop)) /\
  (~ start < 0 <= stop ->
   let start_idx := if start <? 0 then length + start else start in
   let stop_idx := if stop <? 0 then length + stop else stop in
   fft_range_index start stop length =
     if stop_idx <? start_idx
     then Ok (stop_idx, start_idx)
     else Ok (start_idx, stop_idx)).
Proof.
  intros Hs He. rewrite (fft_range_index_cases _ _ _ Hs He). split.
  - intros [Hneg Hpos].
    break_cmp; solve [reflexivity | lia].
  - intros Hnot. unfold resolve_range_spec.
    rewrite (range_check_passes _ _ _ Hs He).
    break_cmp; solve [reflexivity | lia].
Qed.

Lemma fft_range_index_resolved_witness :
  fft_range_index (-10) 10 1024 = Ok (1014, 1034) /\
  fft_range_index 0 (-1) 1024 = Ok (0, 1023).
Proof.
  split.
  - apply (fft_range_index_resolved (-10) 10 1024); lia.
  - apply (fft_range_index_resolved 0 (-1) 1024); lia.
Defined.

(** C3: the four documented cases with [length = 1024]. *)
Theorem fft_range_index_examples :
  fft_range_index 50 100 1024 = Ok (50, 100) /\
  fft_range_index 0 (-1) 1024 = Ok (0, 1023) /\
  fft_range_index (-10) 10 1024 = Ok (1014, 1034) /\
  fft_range_index (-1) 0 1024 = Ok (1023, 1024).
Proof. repeat split; reflexivity. Qed.

(** C4, as stated, fails: the resolved form of the window (-10, 10) of a
    1024-bin spectrum is (1014, 1034), and resolving that again raises,
    since 1034 is not below the length. *)
Lemma fft_range_index_not_idempotent :
  Z.abs (-10) < 1024 /\ Z.abs 10 < 1024 /\
  fft_range_index (-10) 10 1024 = Ok (1014, 1034) /\
  fft_range_index 1014 1034 1024 = Raise (FrequencyWindowOutOfRange 1014 1034).
Proof. repeat split; try reflexivity; lia. Qed.

(** C4, amended: for bounds within the range the call returns a pair with
    [start_idx <= stop_idx]; the resolved stop reaches the length exactly
    for the windows with [start < 0 <= stop]; resolving the result again
    returns it unchanged when its stop is below the length, and raises
    otherwise. *)
Theorem fft_range_index_ordered_reapply (start stop length : Z) :
  Z.abs start < length -> Z.abs stop < length ->
  exists start_idx stop_idx,
    fft_range_index start stop length = Ok (start_idx, stop_idx) /\
    0 <= start_idx <= stop_idx /\
    (length <= stop_idx <-> start < 0 <= stop) /\
    (stop_idx < length ->
     fft_range_index start_idx stop_idx length = Ok (start_idx, stop_idx)) /\
    (length <= stop_idx ->
     fft_range_index start_idx stop_idx length =
       Raise (FrequencyWindowOutOfRange start_idx stop_idx)).
Proof.
  intros Hs He. rewrite (fft_range_index_cases _ _ _ Hs He).
  assert (Hre : forall a b, 0 <= a <= b -> b < length ->
                fft_range_index a b length = Ok (a, b)).
  { intros a b Hab Hb. rewrite fft_range_index_cases by lia.
    unfold resolve_range_spec. rewrite range_check_passes by lia.
    break_cmp; solve [reflexivity | lia]. }
  assert (Hraise : forall a b, length <= b ->
                   fft_range_index a b length =
                     Raise (FrequencyWindowOutOfRange a b)).
  { intros a b Hb. unfold fft_range_index.
    rewrite range_check_fails by lia. reflexivity. }
  unfold resolve_range_spec. rewrite (range_check_passes _ _ _ Hs He).
  break_cmp;
    (eexists; eexists; split; [reflexivity |]);
    (split; [lia |]); (split; [lia |]);
    (split; [intros Hlt; apply Hre; lia | intros Hge; apply Hraise; lia]).
Qed.

Lemma fft_range_index_ordered_reapply_witness :
  exists start_idx stop_idx,
    fft_range_index 0 (-1) 1024 = Ok (start_idx, stop_idx) /\
    0 <= start_idx <= stop_idx /\
    (1024 <= stop_idx <-> 0 < 0 <= -1) /\
    (stop_idx < 1024 ->
     fft_range_index start_idx stop_idx 1024 = Ok (start_idx, stop_idx)) /\
    (1024 <= stop_idx ->
     fft_range_index start_idx stop_idx 1024 =
       Raise (FrequencyWindowOutOfRange start_idx stop_idx)).
Proof. apply (fft_range_index_ordered_reapply 0 (-1) 1024); lia. Defined.

(** ** Errors of the detector *)

Section DetectorErrors.

Context {F : Type} `{Scalar F}.

Lemma py_range_length (a b : Z) : length (py_range a b) = Z.to_nat (b - a).
Proof. unfold py_range. now rewrite length_map, length_seq. Qed.

Lemma np_take_wrap_length (array : list F) (indices : list Z) :
  length (np_take_wrap array indices) = length indices.
Proof. unfold np_take_wrap. apply length_map. Qed.

Lemma lfilter_length (b x : list F) : length (lfilter b x) = length x.
Proof. unfold lfilter. now rewrite length_map, length_seq. Qed.

Lemma np_argmax_nonempty (xs : list F) :
  xs <> [] -> exists i, np_argmax xs = Ok i.
Proof.
  destruct xs as [| x xs']; [congruence |].
  intros _. eexists. reflexivity.
Qed.

Lemma nonempty_by_length (xs : list F) : (0 < length xs)%nat -> xs <> [].
Proof. destruct xs; cbn; [lia | discriminate]. Qed.

Lemma get_window_raises (array : list F) (window : option (Z * Z)) :
  Z.abs (fst (window_bounds window)) >= len array \/
  Z.abs (snd (window_bounds window)) >= len array ->
  _get_window array window =
    Raise (FrequencyWindowOutOfRange (fst (window_bounds window))
                                     (snd (window_bounds window))).
Proof.
  intros Hout. unfold _get_window.
  change (match window with None => (0, -1) | Some w => w end)
    with (window_bounds window).
  destruct (window_bounds window) as [start stop]. cbn [fst snd] in *.
  unfold fft_range_index. rewrite (range_check_fails _ _ _ Hout).
  reflexivity.
Qed.

Lemma get_window_returns (array : list F) (window : option (Z * Z)) :
  Z.abs (fst (window_bounds window)) < len array ->
  Z.abs (snd (window_bounds window)) < len array ->
  exists selection start_idx,
    _get_window array window = Ok (selection, start_idx) /\
    selection <> [].
Proof.
  intros Hs He. unfold _get_window.
  change (match window with None => (0, -1) | Some w => w end)
    with (window_bounds window).
  destruct (window_bounds window) as [start stop]. cbn [fst snd] in *.
  destruct (fft_range_index_returns start stop (len array) Hs He)
    as (a & b & Hab & Hle & _).
  rewrite Hab. cbn [bind]. eexists; eexists; split; [reflexivity |].
  apply nonempty_by_length.
  rewrite np_take_wrap_length, py_range_length. lia.
Qed.

Lemma filter_returns (mags weights : list F) :
  mags <> [] -> weights <> [] ->
  exists filtered delay,
    _filter mags weights = Ok (filtered, delay) /\ filtered <> [].
Proof.
  intros Hm Hw. unfold _filter.
  destruct (np_argmax_nonempty weights Hw) as [am Ham]. rewrite Ham.
  cbn [bind]. eexists; eexists; split; [reflexivity |].
  apply nonempty_by_length.
  rewrite length_map, lfilter_length, length_map.
  destruct mags; cbn; [congruence | lia].
Qed.

Lemma window_peak_returns
  (fft_mag : list F) (window : option (Z * Z)) (peak_filter : option (list F)) :
  peak_filter <> Some [] ->
  Z.abs (fst (window_bounds window)) < len fft_mag ->
  Z.abs (snd (window_bounds window)) < len fft_mag ->
  exists r, _window_peak fft_mag window peak_filter = Ok r.
Proof.
  intros Hpf Hs He. unfold _window_peak.
  destruct (get_window_returns fft_mag window Hs He)
    as (selection & start_idx & Hw & Hne).
  rewrite Hw. cbn [bind].
  assert (Hf : exists mags delay,
             match peak_filter with
             | Some weights => _filter selection weights
             | None => Ok (selection, 0)
             end = Ok (mags, delay) /\ mags <> []).
  { destruct peak_filter as [weights |].
    - apply filter_returns; [assumption | congruence].
    - eexists; eexists; split; [reflexivity | assumption]. }
  destruct Hf as (mags & delay & Hf & Hmags). rewrite Hf. cbn [bind].
  destruct (np_argmax_nonempty mags Hmags) as [i Hi]. rewrite Hi.
  cbn [bind]. eexists. reflexivity.
Qed.

(** The range error: [fft_range_index] raises it exactly when a bound has
    an absolute value of at least the length and returns otherwise, and
    [detect], given a peak filter that is absent or has at least one
    weight, raises it exactly when the bounds of its window fail the same
    test against the length of the spectrum, and returns otherwise. *)
Lemma range_error_exactly_when_out_of_range :
  (forall start stop length : Z,
      (fft_range_index start stop length =
         Raise (FrequencyWindowOutOfRange start stop) <->
       (Z.abs start >= length \/ Z.abs stop >= length)) /\
      ((exists r, fft_range_index start stop length = Ok r) <->
       (Z.abs start < length /\ Z.abs stop < length))) /\
  (forall stop, fft_range_index 1024 stop 1024 =
                  Raise (FrequencyWindowOutOfRange 1024 stop)) /\
  (forall start, fft_range_index start (-1024) 1024 =
                   Raise (FrequencyWindowOutOfRange start (-1024))) /\
  (forall (fft_mag : list F) (thresh_coeffs : F * F * F)
          (window : option (Z * Z)) (peak_filter : option (list F)),
      peak_filter <> Some [] ->
      let start := fst (window_bounds window) in
      let stop := snd (window_bounds window) in
      (detect fft_mag thresh_coeffs window peak_filter =
         Raise (FrequencyWindowOutOfRange start stop) <->
       (Z.abs start >= len fft_mag \/ Z.abs stop >= len fft_mag)) /\
      ((exists r, detect fft_mag thresh_coeffs window peak_filter = Ok r) <->
       (Z.abs start < len fft_mag /\ Z.abs stop < len fft_mag))).
Proof.
  assert (Hraise : forall start stop length,
             Z.abs start >= length \/ Z.abs stop >= length ->
             fft_range_index start stop length =
               Raise (FrequencyWindowOutOfRange start stop)).
  { intros start stop length Hout. unfold fft_range_index.
    now rewrite (range_check_fails _ _ _ Hout). }
  assert (Hok : forall start stop length,
             Z.abs start < length /\ Z.abs stop < length ->
             exists r, fft_range_index start stop length = Ok r).
  { intros start stop length [Hs He].
    destruct (fft_range_index_returns start stop length Hs He)
      as (a & b & Hab & _).
    exists (a, b). exact Hab. }
  split; [| split; [| split]].
  - intros start stop length. split; split.
    + intros Hr.
      destruct (Z_lt_ge_dec (Z.abs start) length) as [Hs | Hs]; [| now left].
      destruct (Z_lt_ge_dec (Z.abs stop) length) as [He | He]; [| now right].
      destruct (Hok start stop length (conj Hs He)) as [r Hr'].
      rewrite Hr' in Hr. discriminate.
    + apply Hraise.
    + intros [r Hr].
      destruct (Z_lt_ge_dec (Z.abs start) length) as [Hs | Hs];
        [destruct (Z_lt_ge_dec (Z.abs stop) length) as [He | He] |];
        [now split | |];
        rewrite Hraise in Hr by lia; discriminate.
    + apply Hok.
  - intros stop. apply Hraise. lia.
  - intros start. apply Hraise. lia.
  - intros fft_mag thresh_coeffs window peak_filter Hpf start stop.
    assert (Hdraise : Z.abs start >= len fft_mag \/ Z.abs stop >= len fft_mag ->
                      detect fft_mag thresh_coeffs window peak_filter =
                        Raise (FrequencyWindowOutOfRange start stop)).
    { intros Hout. unfold detect, _window_peak.
      now rewrite (get_window_raises fft_mag window Hout). }
    assert (Hdok : Z.abs start < len fft_mag /\ Z.abs stop < len fft_mag ->
                   exists r,
                     detect fft_mag thresh_coeffs window peak_filter = Ok r).
    { intros [Hs He]. unfold detect.
      destruct (window_peak_returns fft_mag window peak_filter Hpf Hs He)
        as [[peak_idx peak_mag] Hr].
      rewrite Hr. cbn [bind]. eexists. reflexivity. }
    split; split.
    + intros Hr.
      destruct (Z_lt_ge_dec (Z.abs start) (len fft_mag)) as [Hs | Hs];
        [| now left].
      destruct (Z_lt_ge_dec (Z.abs stop) (len fft_mag)) as [He | He];
        [| now right].
      destruct (Hdok (conj Hs He)) as [r Hr'].
      rewrite Hr' in Hr. discriminate.
    + apply Hdraise.
    + intros [r Hr].
      destruct (Z_lt_ge_dec (Z.abs start) (len fft_mag)) as [Hs | Hs];
        [destruct (Z_lt_ge_dec (Z.abs stop) (len fft_mag)) as [He | He] |];
        [now split | |];
        rewrite Hdraise in Hr by lia; discriminate.
    + apply Hdok.
Qed.

(** C8: leaving the window out is the same call as passing (0, -1), for
    every spectrum, coefficient triple and peak filter, errors included. *)
Theorem detect_default_window
  (fft_mag : list F) (thresh_coeffs : F * F * F)
  (peak_filter : option (list F)) :
  detect fft_mag thresh_coeffs None peak_filter =
  detect fft_mag thresh_coeffs (Some (0, -1)) peak_filter.
Proof. reflexivity. Qed.

(** C9: on a spectrum of one bin the default window raises the range
    error, its stop -1 not being below the length in absolute value, while
    the explicit window (0, 0) returns a result (the peak filter, when one
    is given, having at least one weight). *)
Theorem detect_single_bin
  (x : F) (thresh_coeffs : F * F * F) (peak_filter : option (list F)) :
  detect [x] thresh_coeffs None peak_filter =
    Raise (FrequencyWindowOutOfRange 0 (-1)) /\
  (Z.abs (-1) <? len [x]) = false /\
  (peak_filter <> Some [] ->
   exists r, detect [x] thresh_coeffs (Some (0, 0)) peak_filter = Ok r) /\
  detect [x] thresh_coeffs (Some (0, 0)) None =
    Ok (f_ltb (_calculate_threshold [x] thresh_coeffs (_estimate_noise [x] x)) x,
        0, x, _estimate_noise [x] x).
Proof.
  split; [reflexivity |]. split; [reflexivity |]. split.
  2: { assert (Hw : _window_peak [x] (Some (0, 0)) None = Ok (0, x)).
       { cbv - [f_isnan f_of_Z]. destruct (f_isnan x); reflexivity. }
       unfold detect. rewrite Hw. reflexivity. }
  intros Hpf. unfold detect.
  assert (Hb : Z.abs 0 < len [x]) by (cbn; lia).
  destruct (window_peak_returns [x] (Some (0, 0)) peak_filter Hpf Hb Hb)
    as [[peak_idx peak_mag] Hr].
  rewrite Hr. cbn [bind]. eexists. reflexivity.
Qed.

End DetectorErrors.

(** ** Exact arithmetic: noise estimate and threshold over the reals *)

Section ExactArithmetic.

Local Open Scope R_scope.










End ExactArithmetic.

(** ** binary64: what numpy computes *)

Section Binary64.

Local Open Scope float_scope.

Lemma estimate_noise_noise_power (fft_mag : list float) (peak_mag : float) :
  _estimate_noise fft_mag peak_mag = PrimFloat.sqrt (noise_power fft_mag peak_mag).
Proof. reflexivity. Qed.

Lemma sf_nan_is_nan (x : float) : sf_nan x -> is_nan x = true.
Proof.
  unfold sf_nan, is_nan. intros Hx. now rewrite eqb_spec, Hx.
Qed.

Lemma sqrt_negative (x : float) : (x <? 0) = true -> sf_nan (PrimFloat.sqrt x).
Proof.
  unfold sf_nan. rewrite ltb_spec, sqrt_spec.
  change (Prim2SF 0) with (S754_zero false).
  destruct (Prim2SF x) as [sx | sx | | sx mx ex]; cbn;
    try discriminate; destruct sx; cbn; solve [discriminate | reflexivity].
Qed.

Lemma sqrt_nan (x : float) : sf_nan x -> sf_nan (PrimFloat.sqrt x).
Proof. unfold sf_nan. intros Hx. now rewrite sqrt_spec, Hx. Qed.

Lemma mul_nan_l (x y : float) : sf_nan x -> sf_nan (x * y).
Proof. unfold sf_nan. intros Hx. now rewrite mul_spec, Hx. Qed.

Lemma mul_nan_r (x y : float) : sf_nan y -> sf_nan (x * y).
Proof.
  unfold sf_nan. intros Hy. rewrite mul_spec, Hy.
  now destruct (Prim2SF x).
Qed.

Lemma add_nan_l (x y : float) : sf_nan x -> sf_nan (x + y).
Proof. unfold sf_nan. intros Hx. now rewrite add_spec, Hx. Qed.

Lemma add_nan_r (x y : float) : sf_nan y -> sf_nan (x + y).
Proof.
  unfold sf_nan. intros Hy. rewrite add_spec, Hy.
  now destruct (Prim2SF x).
Qed.

Lemma ltb_nan_l (x y : float) : sf_nan x -> (x <? y) = false.
Proof. unfold sf_nan. intros Hx. now rewrite ltb_spec, Hx. Qed.

(** A NaN noise estimate makes the threshold NaN, whatever the
    coefficients. *)
Lemma calculate_threshold_nan
  (fft_mag : list float) (thresh_coeffs : float * float * float)
  (noise_rms : float) :
  sf_nan noise_rms ->
  sf_nan (_calculate_threshold fft_mag thresh_coeffs noise_rms).
Proof.
  intros Hn. destruct thresh_coeffs as [[c s] d].
  unfold _calculate_threshold, square.
  cbn [f_sqrt f_add f_mul float_Scalar].
  apply sqrt_nan, add_nan_l, add_nan_r, mul_nan_r, mul_nan_l, Hn.
Qed.

(** C2: on the two-bin spectrum (5, 1) with the window (-1, 0) the peak,
    bin 0, is reported at index 2, the length of the spectrum: the index
    is wrapped only when it exceeds the length, not when it exceeds
    [length - 1]. *)
Theorem window_peak_index_reaches_length :
  _window_peak [5; 1] (Some (-1, 0)%Z) None = Ok (2%Z, 5) /\
  len [5; 1] = 2%Z /\
  detect [5; 1] (0, 1, 0) (Some (-1, 0)%Z) None = Ok (false, 2%Z, 5, nan).
Proof. repeat split; vm_compute; reflexivity. Qed.

(** C10, as stated, fails in binary64: the energy of [faint_spectrum] is
    below twice the squared peak, yet the noise power, their negative
    difference divided by 4, rounds to -0, so the noise estimate is -0 and
    not NaN, the threshold is 0 and the verdict is True. *)
Lemma faint_peak_is_detected :
  (np_sum (map square faint_spectrum) <? 2 * square 0x1p-537) = true /\
  noise_power faint_spectrum 0x1p-537 = -0 /\
  detect faint_spectrum (0, 1, 0) None None = Ok (true, 0%Z, 0x1p-537, -0) /\
  is_nan (-0) = false.
Proof. repeat split; vm_compute; reflexivity. Qed.

(** C10, amended: whenever the noise power the code computes from the
    spectrum and the peak magnitude is strictly negative, [detect] returns
    the peak index and magnitude that [_window_peak] found, a NaN noise
    estimate and the verdict False, the threshold being NaN for every
    coefficient triple. *)
Theorem negative_noise_power_never_detects
  (fft_mag : list float) (thresh_coeffs : float * float * float)
  (window : option (Z * Z)) (peak_filter : option (list float))
  (peak_idx : Z) (peak_mag : float) :
  _window_peak fft_mag window peak_filter = Ok (peak_idx, peak_mag) ->
  (noise_power fft_mag peak_mag <? 0) = true ->
  is_nan (_estimate_noise fft_mag peak_mag) = true /\
  is_nan (_calculate_threshold fft_mag thresh_coeffs
            (_estimate_noise fft_mag peak_mag)) = true /\
  detect fft_mag thresh_coeffs window peak_filter =
    Ok (false, peak_idx, peak_mag, _estimate_noise fft_mag peak_mag).
Proof.
  intros Hpeak Hneg.
  assert (Hn : sf_nan (_estimate_noise fft_mag peak_mag)).
  { rewrite estimate_noise_noise_power. now apply sqrt_negative. }
  pose proof (calculate_threshold_nan fft_mag thresh_coeffs _ Hn) as Ht.
  split; [now apply sf_nan_is_nan |]. split; [now apply sf_nan_is_nan |].
  unfold detect. rewrite Hpeak. cbn [bind f_ltb float_Scalar].
  now rewrite (ltb_nan_l _ peak_mag Ht).
Qed.

Lemma negative_noise_power_never_detects_witness :
  is_nan (_estimate_noise [3; 1] 3) = true /\
  is_nan (_calculate_threshold [3; 1] (0, 1, 0) (_estimate_noise [3; 1] 3))
    = true /\
  detect [3; 1] (0, 1, 0) None None =
    Ok (false, 0%Z, 3, _estimate_noise [3; 1] 3).
Proof.
  apply (negative_noise_power_never_detects [3; 1] (0, 1, 0) None None 0%Z 3);
    vm_compute; reflexivity.
Defined.

Lemma detect_single_bin_witness :
  exists r, detect [3] (0, 1, 0) (Some (0, 0)%Z) (Some [1]) = Ok r.
Proof.
  apply (detect_single_bin 3 (0, 1, 0) (Some [1])). discriminate.
Defined.

End Binary64.

(** ** The selected window and the reported bin *)

(** What a returned pair of [fft_range_index] tells about the call. *)
Lemma fft_range_index_inv (start stop length a b : Z) :
  fft_range_index start stop length = Ok (a, b) ->
  Z.abs start < length /\ Z.abs stop < length /\
  0 <= a < length /\ a <= b < 2 * length /\
  b - a + 1 < 2 * length /\
  (length <= b <-> start < 0 <= stop).
Proof.
  unfold fft_range_index. break_cmp; intros Heq;
    solve [discriminate | injection Heq as <- <-; lia].
Qed.

(** X1: for bounds within the range, the resolved start is a bin of the
    spectrum, the resolved stop lies below twice the length, and the
    resolved window holds fewer than twice as many bins as the spectrum,
    so no bin is selected more than twice. *)
Theorem fft_range_index_bounds (start stop length : Z) :
  Z.abs start < length -> Z.abs stop < length ->
  exists start_idx stop_idx,
    fft_range_index start stop length = Ok (start_idx, stop_idx) /\
    0 <= start_idx < length /\
    start_idx <= stop_idx < 2 * length /\
    stop_idx - start_idx + 1 < 2 * length.
Proof.
  intros Hs He.
  destruct (fft_range_index_returns start stop length Hs He)
    as (a & b & Hab & _).
  exists a, b. split; [exact Hab |].
  apply fft_range_index_inv in Hab. lia.
Qed.

Lemma fft_range_index_bounds_witness :
  exists start_idx stop_idx,
    fft_range_index (-10) 10 1024 = Ok (start_idx, stop_idx) /\
    0 <= start_idx < 1024 /\
    start_idx <= stop_idx < 2 * 1024 /\
    stop_idx - start_idx + 1 < 2 * 1024.
Proof. apply (fft_range_index_bounds (-10) 10 1024); lia. Defined.

Section Windows.

Context {F : Type} `{Scalar F}.

Lemma len_nonneg (xs : list F) : 0 <= len xs.
Proof. unfold len. lia. Qed.

(** The [k]-th element of a selection of [n] bins from bin [a] on is the
    bin [a + k], counted modulo the length. *)
Lemma take_wrap_nth (array : list F) (a n : Z) (k : nat) (d : F) :
  (k < Z.to_nat n)%nat ->
  nth k (np_take_wrap array (py_range a (a + n))) d =
    item array ((a + Z.of_nat k) mod len array).
Proof.
  intros Hk. unfold np_take_wrap, py_range. rewrite map_map.
  replace (a + n - a) with n by lia.
  rewrite (nth_indep _ d
             (item array ((a + Z.of_nat 0%nat) mod len array))).
  - rewrite (map_nth (fun x => item array ((a + Z.of_nat x) mod len array))).
    now rewrite seq_nth.
  - now rewrite length_map, length_seq.
Qed.

Lemma take_wrap_length (array : list F) (a b : Z) :
  length (np_take_wrap array (py_range a b)) = Z.to_nat (b - a).
Proof. now rewrite np_take_wrap_length, py_range_length. Qed.

(** A window that does not wrap is a slice of the array. *)
Lemma take_wrap_slice (array : list F) (a b : Z) :
  0 <= a <= b -> b < len array ->
  np_take_wrap array (py_range a (b + 1)) =
    firstn (Z.to_nat (b - a + 1)) (skipn (Z.to_nat a) array).
Proof.
  intros Hab Hb.
  assert (Hlen : length array = Z.to_nat (len array))
    by (unfold len; lia).
  apply (nth_ext _ _ (f_of_Z 0) (f_of_Z 0)).
  - rewrite take_wrap_length, length_firstn, length_skipn. lia.
  - rewrite take_wrap_length. intros k Hk.
    replace (b + 1) with (a + (b + 1 - a)) by lia.
    rewrite take_wrap_nth by lia.
    rewrite nth_firstn, nth_skipn.
    replace (k <? Z.to_nat (b - a + 1))%nat with true
      by (symmetry; apply Nat.ltb_lt; lia).
    unfold item. rewrite Z.mod_small by lia. f_equal. lia.
Qed.

Lemma get_window_ok
  (array : list F) (window : option (Z * Z)) (a b : Z) :
  fft_range_index (fst (window_bounds window)) (snd (window_bounds window))
    (len array) = Ok (a, b) ->
  _get_window array window =
    Ok (np_take_wrap array (py_range a (b + 1)), a).
Proof.
  intros Hab. unfold _get_window.
  change (match window with None => (0, -1) | Some w => w end)
    with (window_bounds window).
  destruct (window_bounds window) as [start stop]. cbn [fst snd] in Hab.
  now rewrite Hab.
Qed.

(** X2: a window given by bins [0 <= start <= stop < length] selects the
    slice [array[start : stop + 1]] and reports [start] as its origin. *)
Theorem get_window_slice (array : list F) (start stop : Z) :
  0 <= start <= stop -> stop < len array ->
  _get_window array (Some (start, stop)) =
    Ok (firstn (Z.to_nat (stop - start + 1)) (skipn (Z.to_nat start) array),
        start).
Proof.
  intros Hss He.
  rewrite (get_window_ok array (Some (start, stop)) start stop).
  - now rewrite take_wrap_slice.
  - cbn [window_bounds fst snd].
    rewrite fft_range_index_cases by lia.
    unfold resolve_range_spec. rewrite range_check_passes by lia.
    break_cmp; solve [reflexivity | lia].
Qed.

(** The default window on a spectrum of at least two bins. *)
Lemma default_window_is_whole (array : list F) :
  2 <= len array -> _get_window array None = Ok (array, 0).
Proof.
  intros HL.
  rewrite (get_window_ok array None 0 (len array - 1)).
  - rewrite take_wrap_slice by lia.
    replace (Z.to_nat (len array - 1 - 0 + 1)) with (length array)
      by (unfold len; lia).
    cbn [Z.to_nat skipn]. now rewrite firstn_all.
  - cbn [window_bounds fst snd].
    rewrite fft_range_index_cases by lia.
    unfold resolve_range_spec. rewrite range_check_passes by lia.
    break_cmp; solve [reflexivity | f_equal; f_equal; lia | lia].
Qed.

(** X3: on a spectrum of at least two bins the default window selects the
    whole spectrum, unchanged and from bin 0. *)
Theorem get_window_default (array : list F) :
  2 <= len array -> _get_window array None = Ok (array, 0).
Proof. intros HL. now apply default_window_is_whole. Qed.

Lemma argmax_scan_bounds (xs : list F) :
  forall (mp : F) (best i : Z),
    0 <= best < i ->
    best <= argmax_scan mp best i xs < i + len xs.
Proof.
  induction xs as [| x xs IH]; intros mp best i Hb.
  - cbn. unfold len. cbn. lia.
  - cbn [argmax_scan]. unfold len in *. cbn [length].
    destruct (f_leb x mp).
    + specialize (IH mp best (i + 1)). lia.
    + destruct (f_isnan x); [lia |].
      specialize (IH x i (i + 1)). lia.
Qed.

(** [np.argmax] raises on the empty array and nowhere else, and the
    index it returns is an index of the array. *)
Theorem np_argmax_bounds (xs : list F) :
  (xs = [] -> np_argmax xs = Raise ArgmaxOfEmptySequence) /\
  (forall i, np_argmax xs = Ok i -> 0 <= i < len xs) /\
  (xs <> [] -> exists i, np_argmax xs = Ok i /\ 0 <= i < len xs).
Proof.
  assert (Hok : forall i, np_argmax xs = Ok i -> 0 <= i < len xs).
  { destruct xs as [| x xs']; [discriminate |].
    cbn [np_argmax]. intros i [= <-].
    pose proof (argmax_scan_bounds xs' x 0 1) as Hs.
    unfold len in *. cbn [length].
    destruct (f_isnan x); lia. }
  split; [| split].
  - intros ->. reflexivity.
  - exact Hok.
  - intros Hne. destruct (np_argmax_nonempty xs Hne) as [i Hi].
    exists i. split; [exact Hi | now apply Hok].
Qed.

(** What [_window_peak] computes when no filter is given. *)
Lemma window_peak_unfiltered
  (fft_mag : list F) (window : option (Z * Z)) (peak_idx : Z) (peak_mag : F) :
  _window_peak fft_mag window None = Ok (peak_idx, peak_mag) ->
  exists a b m,
    fft_range_index (fst (window_bounds window)) (snd (window_bounds window))
      (len fft_mag) = Ok (a, b) /\
    0 <= m <= b - a /\
    peak_mag = item fft_mag ((a + m) mod len fft_mag) /\
    peak_idx = (if m + a >? len fft_mag then m + a - len fft_mag else m + a) /\
    np_argmax (np_take_wrap fft_mag (py_range a (b + 1))) = Ok m.
Proof.
  intros Hpeak.
  destruct (fft_range_index (fst (window_bounds window))
              (snd (window_bounds window)) (len fft_mag))
    as [[a b] | e] eqn:Hab.
  - pose proof (fft_range_index_inv _ _ _ _ _ Hab) as Hinv.
    unfold _window_peak in Hpeak.
    rewrite (get_window_ok _ _ _ _ Hab) in Hpeak. cbn [bind] in Hpeak.
    destruct (np_argmax (np_take_wrap fft_mag (py_range a (b + 1))))
      as [m | e] eqn:Hm; [| discriminate].
    cbn [bind] in Hpeak.
    destruct (np_argmax_bounds (np_take_wrap fft_mag (py_range a (b + 1))))
      as (_ & Hbound & _).
    specialize (Hbound m Hm). unfold len in Hbound at 1.
    rewrite take_wrap_length in Hbound.
    injection Hpeak as Hidx Hmag.
    exists a, b, m. split; [reflexivity |]. split; [lia |]. split.
    + rewrite <- Hmag. unfold item at 1.
      replace (b + 1) with (a + (b + 1 - a)) by lia.
      rewrite take_wrap_nth by lia. f_equal. f_equal. lia.
    + split; [| exact Hm].
      rewrite <- Hidx. replace (m - 0 + a) with (m + a) by lia. reflexivity.
  - unfold _window_peak, _get_window in Hpeak.
    change (match window with None => (0, -1) | Some w => w end)
      with (window_bounds window) in Hpeak.
    destruct (window_bounds window) as [start stop]. cbn [fst snd] in Hab.
    rewrite Hab in Hpeak. discriminate.
Qed.

(** X4: without a peak filter the reported index lies between 0 and the
    length of the spectrum, both included, and the reported magnitude is
    the value of the bin the index names modulo the length. *)
Theorem window_peak_reports_its_bin
  (fft_mag : list F) (window : option (Z * Z)) (peak_idx : Z) (peak_mag : F) :
  _window_peak fft_mag window None = Ok (peak_idx, peak_mag) ->
  0 <= peak_idx <= len fft_mag /\
  peak_mag = item fft_mag (peak_idx mod len fft_mag).
Proof.
  intros Hpeak.
  destruct (window_peak_unfiltered _ _ _ _ Hpeak)
    as (a & b & m & Hab & Hm & Hmag & Hidx & _).
  apply fft_range_index_inv in Hab.
  assert (HL : 0 < len fft_mag) by lia.
  rewrite Hidx, Hmag. break_cmp.
  - split; [lia |]. f_equal.
    replace (m + a - len fft_mag) with (a + m + (-1) * len fft_mag) by lia.
    now rewrite Z.mod_add by lia.
  - split; [lia |]. f_equal. f_equal. lia.
Qed.

(** X5: without a peak filter, a window that does not run from a negative
    start to a non-negative stop has its peak reported inside the resolved
    window, so at a bin of the spectrum. *)
Theorem window_peak_inside_plain_window
  (fft_mag : list F) (start stop peak_idx : Z) (peak_mag : F) :
  ~ start < 0 <= stop ->
  _window_peak fft_mag (Some (start, stop)) None = Ok (peak_idx, peak_mag) ->
  exists start_idx stop_idx,
    fft_range_index start stop (len fft_mag) = Ok (start_idx, stop_idx) /\
    start_idx <= peak_idx <= stop_idx /\
    0 <= peak_idx < len fft_mag /\
    peak_mag = item fft_mag peak_idx.
Proof.
  intros Hplain Hpeak.
  destruct (window_peak_unfiltered _ _ _ _ Hpeak)
    as (a & b & m & Hab & Hm & Hmag & Hidx & _).
  cbn [window_bounds fst snd] in Hab.
  exists a, b. split; [exact Hab |].
  apply fft_range_index_inv in Hab.
  assert (Hb : b < len fft_mag) by lia.
  rewrite Hidx, Hmag. break_cmp; [lia |].
  split; [lia |]. split; [lia |]. f_equal.
  rewrite Z.mod_small by lia. lia.
Qed.

End Windows.

(** ** The peak filter *)

Section PeakFilter.

Context {F : Type} `{Scalar F}.

Lemma filter_returns_shape (mags weights : list F) :
  weights <> [] ->
  exists filtered delay,
    _filter mags weights = Ok (filtered, delay) /\
    length filtered = length mags /\
    0 <= delay < len weights.
Proof.
  intros Hw. unfold _filter.
  destruct (np_argmax_bounds weights) as (_ & _ & Hex).
  destruct (Hex Hw) as (am & Ham & Hbound). rewrite Ham. cbn [bind].
  eexists; eexists; split; [reflexivity |]. split; [| lia].
  now rewrite length_map, lfilter_length, length_map.
Qed.

(** X6: [_filter] raises on an empty weight array and on no other; with at
    least one weight it returns as many values as it was given and a delay
    between 0 and the number of weights less one. *)
Theorem filter_shape (mags weights : list F) :
  (weights = [] -> _filter mags weights = Raise ArgmaxOfEmptySequence) /\
  (weights <> [] ->
   exists filtered delay,
     _filter mags weights = Ok (filtered, delay) /\
     length filtered = length mags /\
     0 <= delay < len weights).
Proof.
  split.
  - intros ->. reflexivity.
  - apply filter_returns_shape.
Qed.

(** X7: with an empty peak filter [detect] returns nothing: it raises the
    range error when the window is out of range and the error of
    [np.argmax] on an empty sequence otherwise. *)
Theorem detect_empty_filter
  (fft_mag : list F) (thresh_coeffs : F * F * F) (window : option (Z * Z)) :
  let start := fst (window_bounds window) in
  let stop := snd (window_bounds window) in
  (Z.abs start >= len fft_mag \/ Z.abs stop >= len fft_mag ->
   detect fft_mag thresh_coeffs window (Some []) =
     Raise (FrequencyWindowOutOfRange start stop)) /\
  (Z.abs start < len fft_mag /\ Z.abs stop < len fft_mag ->
   detect fft_mag thresh_coeffs window (Some []) =
     Raise ArgmaxOfEmptySequence).
Proof.
  intros start stop. split.
  - intros Hout. unfold detect, _window_peak.
    now rewrite (get_window_raises fft_mag window Hout).
  - intros [Hs He]. unfold detect, _window_peak.
    destruct (get_window_returns fft_mag window Hs He)
      as (selection & start_idx & Hw & _).
    rewrite Hw. reflexivity.
Qed.

(** X8: with a peak filter of [M] weights the reported index lies above
    [-M] and is at most the length of the spectrum: the delay correction
    can carry the index below bin 0, and nothing wraps it back. *)
Theorem window_peak_filtered_range
  (fft_mag weights : list F) (window : option (Z * Z))
  (peak_idx : Z) (peak_mag : F) :
  _window_peak fft_mag window (Some weights) = Ok (peak_idx, peak_mag) ->
  - len weights < peak_idx <= len fft_mag.
Proof.
  intros Hpeak. unfold _window_peak in Hpeak.
  destruct (fft_range_index (fst (window_bounds window))
              (snd (window_bounds window)) (len fft_mag))
    as [[a b] | e] eqn:Hab.
  - pose proof (fft_range_index_inv _ _ _ _ _ Hab) as Hinv.
    rewrite (get_window_ok _ _ _ _ Hab) in Hpeak. cbn [bind] in Hpeak.
    destruct weights as [| w ws]; [discriminate |].
    destruct (filter_returns_shape (np_take_wrap fft_mag (py_range a (b + 1)))
                (w :: ws)) as (filtered & delay & Hf & Hlen & Hdelay);
      [discriminate |].
    rewrite Hf in Hpeak. cbn [bind] in Hpeak.
    destruct (np_argmax filtered) as [m | e] eqn:Hm; [| discriminate].
    cbn [bind] in Hpeak.
    destruct (np_argmax_bounds filtered) as (_ & Hbound & _).
    specialize (Hbound m Hm). unfold len in Hbound at 1.
    rewrite Hlen, take_wrap_length in Hbound.
    injection Hpeak as Hidx _. rewrite <- Hidx.
    break_cmp; lia.
  - unfold _get_window in Hpeak.
    change (match window with None => (0, -1) | Some w => w end)
      with (window_bounds window) in Hpeak.
    destruct (window_bounds window) as [start stop]. cbn [fst snd] in Hab.
    rewrite Hab in Hpeak. discriminate.
Qed.

(** Zeros that do not exceed the running maximum are scanned over. *)
Lemma argmax_scan_zeros (n : nat) :
  forall (mp : F) (best i : Z) (rest : list F),
    f_leb (f_of_Z 0) mp = true ->
    argmax_scan mp best i (repeat (f_of_Z 0) n ++ rest) =
      argmax_scan mp best (i + Z.of_nat n) rest.
Proof.
  induction n as [| n IH]; intros mp best i rest Hle.
  - cbn [repeat app]. f_equal. lia.
  - cbn [repeat app argmax_scan]. rewrite Hle, IH by exact Hle.
    f_equal. lia.
Qed.

Lemma np_argmax_impulse (k m : nat) (A : F) :
  f_leb (f_of_Z 0) (f_of_Z 0) = true ->
  f_leb (f_of_Z 0) A = true ->
  f_leb A (f_of_Z 0) = false ->
  f_isnan (f_of_Z 0) = false ->
  f_isnan A = false ->
  np_argmax (impulse k m A) = Ok (Z.of_nat k).
Proof.
  intros Hzz HzA HAz Hnz HnA. unfold impulse.
  destruct k as [| k].
  - cbn [repeat app np_argmax]. rewrite HnA.
    rewrite <- (app_nil_r (repeat (f_of_Z 0) m)).
    rewrite argmax_scan_zeros by exact HzA. reflexivity.
  - cbn [repeat app np_argmax]. rewrite Hnz.
    rewrite argmax_scan_zeros by exact Hzz.
    cbn [argmax_scan]. rewrite HAz, HnA.
    rewrite <- (app_nil_r (repeat (f_of_Z 0) m)).
    rewrite argmax_scan_zeros by exact HzA.
    cbn [argmax_scan]. f_equal. lia.
Qed.

Lemma window_peak_impulse (k m : nat) (A : F) :
  (1 <= k + m)%nat ->
  np_argmax (impulse k m A) = Ok (Z.of_nat k) ->
  _window_peak (impulse k m A) None None = Ok (Z.of_nat k, A).
Proof.
  intros HL Hmax.
  assert (Hlen : len (impulse k m A) = Z.of_nat (k + 1 + m)).
  { unfold len, impulse. rewrite length_app. cbn [length].
    rewrite !repeat_length. lia. }
  unfold _window_peak. rewrite default_window_is_whole by lia.
  cbn [bind]. rewrite Hmax. cbn [bind]. rewrite Hlen.
  replace (Z.of_nat k - 0 + 0) with (Z.of_nat k) by lia.
  replace (Z.of_nat k >? Z.of_nat (k + 1 + m)) with false
    by (symmetry; rewrite Z.gtb_ltb; apply Z.ltb_ge; lia).
  f_equal. f_equal. unfold item, impulse. rewrite Nat2Z.id.
  rewrite <- (repeat_length (f_of_Z 0) k) at 1. apply nth_middle.
Qed.

End PeakFilter.

(** ** binary64: isolated peaks and NaN bins *)

Section Binary64Peaks.

Local Open Scope float_scope.

Lemma float_zero : @f_of_Z float float_Scalar 0%Z = 0.
Proof. reflexivity. Qed.

Lemma SFcompare_refl (s : spec_float) :
  s <> S754_nan -> SFcompare s s = Some Eq.
Proof.
  destruct s as [b | b | | b m e]; intros Hs; try congruence.
  - reflexivity.
  - now destruct b.
  - cbn. rewrite Z.compare_refl, Pos.compare_cont_refl. now destruct b.
Qed.

Lemma is_nan_sf_nan (x : float) : is_nan x = true -> sf_nan x.
Proof.
  unfold is_nan, sf_nan. rewrite eqb_spec. unfold SFeqb. intros Hx.
  destruct (Prim2SF x) as [b | b | | b m e] eqn:Hs; [| | reflexivity |];
    rewrite SFcompare_refl in Hx by discriminate; discriminate.
Qed.

Lemma leb_nan_l (x y : float) : is_nan x = true -> (x <=? y) = false.
Proof.
  intros Hx. apply is_nan_sf_nan in Hx. unfold sf_nan in Hx.
  now rewrite leb_spec, Hx.
Qed.

Lemma ltb_nan_r (x y : float) : sf_nan y -> (x <? y) = false.
Proof.
  unfold sf_nan. intros Hy. rewrite ltb_spec, Hy. unfold SFltb.
  now destruct (Prim2SF x).
Qed.

Lemma sub_nan_r (x y : float) : sf_nan y -> sf_nan (x - y).
Proof.
  unfold sf_nan. intros Hy. rewrite sub_spec, Hy.
  now destruct (Prim2SF x).
Qed.

Lemma div_nan_l (x y : float) : sf_nan x -> sf_nan (x / y).
Proof. unfold sf_nan. intros Hx. now rewrite div_spec, Hx. Qed.

(** A strictly positive binary64 number is not NaN and compares with
    zero as a number does. *)
Lemma positive_float (A : float) :
  (0 <? A) = true ->
  (0 <=? A) = true /\ (A <=? 0) = false /\ is_nan A = false.
Proof.
  unfold is_nan. rewrite ltb_spec, !leb_spec, eqb_spec.
  change (Prim2SF 0) with (S754_zero false).
  destruct (Prim2SF A) as [b | b | | b m e]; cbn;
    try discriminate; destruct b; cbn; try discriminate; intros _;
    repeat split.
  now rewrite Z.compare_refl, Pos.compare_cont_refl.
Qed.

(** X9: a spectrum of at least two bins that is zero except for one
    strictly positive bin (infinite or not) has its peak found at that bin,
    with that magnitude, by the unfiltered full-window search. *)
Theorem isolated_peak_located (k m : nat) (A : float) :
  (1 <= k + m)%nat ->
  (0 <? A) = true ->
  _window_peak (impulse k m A) None None = Ok (Z.of_nat k, A).
Proof.
  intros HL HA. destruct (positive_float A HA) as (HzA & HAz & HnA).
  apply window_peak_impulse; [exact HL |].
  apply np_argmax_impulse; rewrite ?float_zero; cbn [f_leb f_isnan float_Scalar];
    solve [reflexivity | assumption].
Qed.

Lemma isolated_peak_located_witness :
  _window_peak (impulse 2 3 5) None None = Ok (2%Z, 5).
Proof. apply (isolated_peak_located 2 3 5); [lia | reflexivity]. Defined.

(** [np.argmax] stops at the first NaN it meets. *)
Lemma argmax_scan_nan (xs : list float) :
  forall (mp : float) (best i : Z),
    Exists (fun x => is_nan x = true) xs ->
    (i <= argmax_scan mp best i xs < i + len xs)%Z /\
    is_nan (nth (Z.to_nat (argmax_scan mp best i xs - i)) xs (f_of_Z 0)) = true.
Proof.
  induction xs as [| x xs IH]; intros mp best i Hex.
  - inversion Hex.
  - assert (Hstep : forall mp' best',
               Exists (fun y => is_nan y = true) xs ->
               (i <= argmax_scan mp' best' (i + 1) xs < i + len (x :: xs))%Z /\
               is_nan (nth (Z.to_nat (argmax_scan mp' best' (i + 1) xs - i))
                         (x :: xs) (f_of_Z 0)) = true).
    { intros mp' best' Hxs.
      destruct (IH mp' best' (i + 1)%Z Hxs) as [Hr Hn].
      unfold len in *. cbn [length]. split; [lia |].
      replace (Z.to_nat (argmax_scan mp' best' (i + 1) xs - i))
        with (S (Z.to_nat (argmax_scan mp' best' (i + 1) xs - (i + 1))))
        by lia.
      exact Hn. }
    cbn [argmax_scan f_leb f_isnan float_Scalar].
    destruct (x <=? mp) eqn:Hle.
    + apply Hstep. inversion Hex as [? ? Hx | ? ? Hxs]; [| exact Hxs].
      rewrite (leb_nan_l x mp Hx) in Hle. discriminate.
    + destruct (is_nan x) eqn:Hx.
      * unfold len. cbn [length]. split; [lia |].
        replace (Z.to_nat (i - i)) with 0%nat by lia. exact Hx.
      * apply Hstep. inversion Hex as [? ? Hx' | ? ? Hxs]; [| exact Hxs].
        congruence.
Qed.

Lemma np_argmax_nan (xs : list float) :
  Exists (fun x => is_nan x = true) xs ->
  exists r, np_argmax xs = Ok r /\ (0 <= r < len xs)%Z /\
            is_nan (item xs r) = true.
Proof.
  intros Hex. destruct xs as [| x xs]; [inversion Hex |].
  cbn [np_argmax f_isnan float_Scalar]. eexists. split; [reflexivity |].
  destruct (is_nan x) eqn:Hx.
  - unfold len, item. cbn [length Z.to_nat nth]. split; [lia | exact Hx].
  - inversion Hex as [? ? Hx' | ? ? Hxs]; [congruence |].
    destruct (argmax_scan_nan xs x 0%Z 1%Z Hxs) as [Hr Hn].
    unfold len in *. cbn [length]. split; [lia |].
    unfold item.
    replace (Z.to_nat (argmax_scan x 0 1 xs))
      with (S (Z.to_nat (argmax_scan x 0 1 xs - 1))) by lia.
    exact Hn.
Qed.

(** X10: when a spectrum of at least two bins holds a NaN, the unfiltered
    full-window [detect] reports a bin that holds one, a NaN magnitude and
    a NaN noise estimate, and its verdict is False for every coefficient
    triple. *)
Theorem nan_spectrum_not_detected
  (fft_mag : list float) (thresh_coeffs : float * float * float) :
  (2 <= len fft_mag)%Z ->
  Exists (fun x => is_nan x = true) fft_mag ->
  exists peak_idx,
    detect fft_mag thresh_coeffs None None =
      Ok (false, peak_idx, item fft_mag peak_idx,
          _estimate_noise fft_mag (item fft_mag peak_idx)) /\
    (0 <= peak_idx < len fft_mag)%Z /\
    is_nan (item fft_mag peak_idx) = true /\
    is_nan (_estimate_noise fft_mag (item fft_mag peak_idx)) = true.
Proof.
  intros HL Hex.
  destruct (np_argmax_nan fft_mag Hex) as (r & Hr & Hbound & Hnan).
  pose proof (is_nan_sf_nan _ Hnan) as Hp.
  exists r. unfold detect, _window_peak.
  rewrite default_window_is_whole by exact HL. cbn [bind]. rewrite Hr.
  cbn [bind]. replace (r - 0 + 0)%Z with r by lia.
  replace (r >? len fft_mag)%Z with false
    by (symmetry; rewrite Z.gtb_ltb; apply Z.ltb_ge; lia).
  cbn [f_ltb float_Scalar]. rewrite (ltb_nan_r _ _ Hp).
  split; [reflexivity |]. split; [exact Hbound |]. split; [exact Hnan |].
  apply sf_nan_is_nan. unfold _estimate_noise, square.
  cbn [f_sqrt f_div f_sub f_mul float_Scalar].
  apply sqrt_nan, div_nan_l, sub_nan_r, mul_nan_r, mul_nan_l, Hp.
Qed.

Lemma nan_spectrum_not_detected_witness :
  exists peak_idx,
    detect [1; nan; 3] (0, 1, 0) None None =
      Ok (false, peak_idx, item [1; nan; 3] peak_idx,
          _estimate_noise [1; nan; 3] (item [1; nan; 3] peak_idx)) /\
    (0 <= peak_idx < len [1; nan; 3]%float)%Z /\
    is_nan (item [1; nan; 3] peak_idx) = true /\
    is_nan (_estimate_noise [1; nan; 3] (item [1; nan; 3] peak_idx)) = true.
Proof.
  apply (nan_spectrum_not_detected [1; nan; 3] (0, 1, 0)).
  - cbn. lia.
  - apply Exists_cons_tl, Exists_cons_hd. reflexivity.
Defined.

End Binary64Peaks.

(** ** Exact arithmetic: the peak is a maximum *)

Section ExactPeak.

Local Open Scope R_scope.

(** The scan keeps the first largest element of what it has seen: [pre]
    is the part already scanned, [best] the index of its first maximum. *)
Lemma argmax_scan_first_max (xs : list R) :
  forall (pre : list R) (mp : R) (best : nat),
    (best < length pre)%nat ->
    nth best pre 0 = mp ->
    Forall (fun y => y <= mp) pre ->
    Forall (fun y => y < mp) (firstn best pre) ->
    exists r : nat,
      argmax_scan mp (Z.of_nat best) (Z.of_nat (length pre)) xs = Z.of_nat r /\
      (r < length (pre ++ xs))%nat /\
      Forall (fun y => y <= nth r (pre ++ xs) 0) (pre ++ xs) /\
      Forall (fun y => y < nth r (pre ++ xs) 0) (firstn r (pre ++ xs)).
Proof.
  induction xs as [| x xs IH]; intros pre mp best Hb Hmp Hle Hlt.
  - exists best. rewrite app_nil_r, Hmp. now repeat split.
  - cbn [argmax_scan f_leb f_isnan R_Scalar].
    replace (Z.of_nat (length pre) + 1)%Z
      with (Z.of_nat (length (pre ++ [x])))
      by (rewrite length_app; cbn [length]; lia).
    replace (pre ++ x :: xs) with ((pre ++ [x]) ++ xs)
      by (now rewrite <- app_assoc).
    destruct (Rle_dec x mp) as [Hx | Hx].
    + apply IH.
      * rewrite length_app. lia.
      * now rewrite app_nth1.
      * apply Forall_app. split; [exact Hle | now constructor].
      * rewrite firstn_app.
        replace (best - length pre)%nat with 0%nat by lia.
        cbn [firstn]. now rewrite app_nil_r.
    + assert (Hgt : mp < x) by lra.
      apply IH.
      * rewrite length_app. cbn [length]. lia.
      * apply nth_middle.
      * apply Forall_app. split.
        -- eapply Forall_impl; [| exact Hle]. cbn. intros y Hy. lra.
        -- constructor; [lra | constructor].
      * rewrite firstn_app, firstn_all, Nat.sub_diag. cbn [firstn].
        rewrite app_nil_r.
        eapply Forall_impl; [| exact Hle]. cbn. intros y Hy. lra.
Qed.

(** [np.argmax] over the reals returns the first index of a largest
    element. *)
Lemma np_argmax_first_max (xs : list R) (i : Z) :
  np_argmax xs = Ok i ->
  (0 <= i < len xs)%Z /\
  (forall j, (0 <= j < len xs)%Z -> item xs j <= item xs i) /\
  (forall j, (0 <= j < i)%Z -> item xs j < item xs i).
Proof.
  destruct xs as [| x xs']; [discriminate |].
  cbn [np_argmax f_isnan R_Scalar]. intros [= <-].
  destruct (argmax_scan_first_max xs' [x] x 0) as (r & Hr & Hlen & Hle & Hlt).
  - cbn. lia.
  - reflexivity.
  - constructor; [lra | constructor].
  - constructor.
  - cbn [length Z.of_nat app] in *. change (Z.pos (Pos.of_succ_nat 0)) with 1%Z in Hr.
    rewrite Hr. unfold len, item. cbn [length]. rewrite Nat2Z.id.
    change (@f_of_Z R R_Scalar 0%Z) with 0.
    split; [lia |]. split.
    + intros j Hj. rewrite Forall_nth in Hle.
      apply Hle. cbn [length]. lia.
    + intros j Hj. rewrite Forall_nth in Hlt.
      specialize (Hlt (Z.to_nat j) 0).
      rewrite nth_firstn in Hlt.
      replace (Z.to_nat j <? r)%nat with true in Hlt
        by (symmetry; apply Nat.ltb_lt; lia).
      apply Hlt. rewrite length_firstn. cbn [length] in *. lia.
Qed.

(** X11: over the reals, without a peak filter, the reported magnitude is
    the largest of the selected bins and belongs to the first selected bin
    that reaches it; the reported index names that bin modulo the length. *)
Theorem window_peak_is_first_maximum
  (fft_mag : list R) (window : option (Z * Z)) (peak_idx : Z) (peak_mag : R) :
  _window_peak fft_mag window None = Ok (peak_idx, peak_mag) ->
  exists a b m,
    fft_range_index (fst (window_bounds window)) (snd (window_bounds window))
      (len fft_mag) = Ok (a, b) /\
    (0 <= m <= b - a)%Z /\
    (peak_idx mod len fft_mag = (a + m) mod len fft_mag)%Z /\
    peak_mag = item fft_mag ((a + m) mod len fft_mag) /\
    (forall k, (0 <= k <= b - a)%Z ->
       item fft_mag ((a + k) mod len fft_mag) <= peak_mag) /\
    (forall k, (0 <= k < m)%Z ->
       item fft_mag ((a + k) mod len fft_mag) < peak_mag).
Proof.
  intros Hpeak.
  destruct (window_peak_unfiltered _ _ _ _ Hpeak)
    as (a & b & m & Hab & Hm & Hmag & Hidx & Hmax).
  exists a, b, m. split; [exact Hab |]. split; [exact Hm |].
  apply fft_range_index_inv in Hab.
  destruct (np_argmax_first_max _ _ Hmax) as (Hbound & Hle & Hlt).
  unfold len in Hbound at 1, Hle at 1. rewrite take_wrap_length in Hbound, Hle.
  assert (Hsel : forall k, (0 <= k <= b - a)%Z ->
            item (np_take_wrap fft_mag (py_range a (b + 1))) k =
              item fft_mag ((a + k) mod len fft_mag)).
  { intros k Hk. unfold item at 1.
    replace (b + 1)%Z with (a + (b + 1 - a))%Z by lia.
    rewrite take_wrap_nth by lia. f_equal. f_equal. lia. }
  split; [| split; [exact Hmag | split]].
  - rewrite Hidx. destruct (m + a >? len fft_mag)%Z.
    + replace (m + a - len fft_mag)%Z
        with (a + m + (-1) * len fft_mag)%Z by lia.
      rewrite Z.mod_add by lia. reflexivity.
    + f_equal. lia.
  - intros k Hk. rewrite Hmag, <- !Hsel by lia. apply Hle. lia.
  - intros k Hk. rewrite Hmag, <- !Hsel by lia. apply Hlt. lia.
Qed.






(** *** The matched filter on an isolated peak *)








End ExactPeak.

(** ** The config file parser *)

Module SettingsFacts.

Import Settings.

Lemma str_eqb_eq (a b : str) : str_eqb a b = true <-> a = b.
Proof.
  revert b. induction a as [| x a IH]; intros [| y b]; cbn;
    try (split; [discriminate | congruence]); [tauto |].
  rewrite andb_true_iff, Ascii.eqb_eq, IH.
  split; [intros [-> ->]; reflexivity | intros [= -> ->]; tauto].
Qed.

Lemma str_eqb_refl (a : str) : str_eqb a a = true.
Proof. now apply str_eqb_eq. Qed.

Lemma str_eqb_neq (a b : str) : a <> b -> str_eqb a b = false.
Proof.
  intros Hne. destruct (str_eqb a b) eqn:Heq; [| reflexivity].
  apply str_eqb_eq in Heq. contradiction.
Qed.

(** [split(c, 1)] cuts at the first occurrence of [c]. *)
Lemma split1_absent (c : Ascii.ascii) (line : str) :
  contains c line = false -> split1 c line = [line].
Proof.
  unfold contains. induction line as [| x rest IH]; cbn; [reflexivity |].
  rewrite orb_false_iff. intros [Hx Hrest].
  rewrite Ascii.eqb_sym, Hx, (IH Hrest). reflexivity.
Qed.

Lemma split1_present (c : Ascii.ascii) (line : str) :
  contains c line = true ->
  exists before after,
    split1 c line = [before; after] /\
    line = before ++ c :: after /\
    contains c before = false.
Proof.
  unfold contains. induction line as [| x rest IH]; cbn; [discriminate |].
  destruct (Ascii.eqb_spec x c) as [-> | Hne].
  - intros _. exists [], rest. now repeat split.
  - rewrite Ascii.eqb_sym.
    destruct (Ascii.eqb_spec x c) as [Heq | _]; [contradiction |].
    cbn [orb]. intros Hrest.
    destruct (IH Hrest) as (before & after & Hsplit & Hline & Hfree).
    exists (x :: before), after. rewrite Hsplit, Hline. cbn.
    rewrite Ascii.eqb_sym.
    destruct (Ascii.eqb_spec x c) as [Heq | _]; [contradiction |].
    now repeat split.
Qed.

Lemma code_part_no_comment (line : str) :
  contains CONFIG_COMMENT_CHAR (code_part line) = false.
Proof.
  unfold code_part.
  destruct (contains CONFIG_COMMENT_CHAR line) eqn:Hc.
  - destruct (split1_present _ _ Hc) as (before & after & -> & _ & Hfree).
    exact Hfree.
  - now rewrite (split1_absent _ _ Hc).
Qed.

(** *** Dicts *)

Lemma dict_get_set_same {V : Type} (key : str) (value : V) (d : dict V) :
  dict_get key (dict_set key value d) = Some value.
Proof.
  induction d as [| [k v] d IH]; cbn.
  - now rewrite str_eqb_refl.
  - destruct (str_eqb key k) eqn:Hk; cbn; now rewrite Hk.
Qed.

Lemma dict_get_set_other {V : Type} (key key' : str) (value : V) (d : dict V) :
  key' <> key ->
  dict_get key' (dict_set key value d) = dict_get key' d.
Proof.
  intros Hne. induction d as [| [k v] d IH]; cbn.
  - now rewrite (str_eqb_neq _ _ Hne).
  - destruct (str_eqb key k) eqn:Hk; cbn.
    + apply str_eqb_eq in Hk. subst k.
      now rewrite (str_eqb_neq _ _ Hne).
    + now rewrite IH.
Qed.

Lemma dict_set_keys {V : Type} (key : str) (value : V) (d : dict V) :
  map fst (dict_set key value d) =
    if dict_mem key d then map fst d else map fst d ++ [key].
Proof.
  unfold dict_mem. induction d as [| [k v] d IH]; cbn; [reflexivity |].
  destruct (str_eqb key k) eqn:Hk; cbn; [reflexivity |].
  rewrite IH. now destruct (dict_get key d).
Qed.

Lemma dict_get_none_keys {V : Type} (key : str) (d : dict V) :
  dict_get key d = None <-> ~ In key (map fst d).
Proof.
  induction d as [| [k v] d IH]; cbn; [tauto |].
  destruct (str_eqb key k) eqn:Hk.
  - apply str_eqb_eq in Hk. subst. split; [discriminate | tauto].
  - rewrite IH. split; [| tauto].
    intros Hnot [Heq | Hin]; [| tauto].
    subst. rewrite str_eqb_refl in Hk. discriminate.
Qed.

Lemma dict_set_NoDup {V : Type} (key : str) (value : V) (d : dict V) :
  NoDup (map fst d) -> NoDup (map fst (dict_set key value d)).
Proof.
  intros Hd. rewrite dict_set_keys. unfold dict_mem.
  destruct (dict_get key d) eqn:Hget; [exact Hd |].
  apply dict_get_none_keys in Hget.
  apply NoDup_app; [exact Hd | repeat constructor; intros [] | ].
  intros x Hx [<- | []]. contradiction.
Qed.

Lemma dict_set_In {V : Type} (key : str) (value : V) (d : dict V) (kv : str * V) :
  In kv (dict_set key value d) -> In kv d \/ kv = (key, value).
Proof.
  induction d as [| [k v] d IH]; cbn.
  - intros [<- | []]. now right.
  - destruct (str_eqb key k) eqn:Hk; cbn.
    + apply str_eqb_eq in Hk. subst. intros [<- | Hin]; [now right | tauto].
    + intros [<- | Hin]; [tauto |]. destruct (IH Hin); tauto.
Qed.

Section Parser.

Variable is_space : Ascii.ascii -> bool.

(** What the loop body does with a line, by the kind of the line. *)
Lemma parse_line_cases (line_no : Z) (line : str) (settings : dict str) :
  parse_line is_space line_no line settings =
    if is_blank is_space line then Return settings
    else if has_delimiter line
    then Return (dict_set (fst (assignment is_space line))
                          (snd (assignment is_space line)) settings)
    else Throw (ConfigSyntaxError (line_no + 1) no_delimiter_found).
Proof.
  unfold parse_line, is_blank, has_delimiter, assignment, code_part.
  destruct (contains CONFIG_COMMENT_CHAR line) eqn:Hc.
  - destruct (split1_present _ _ Hc) as (before & after & -> & _ & _).
    cbn [and_then].
    destruct (List.length (strip is_space before) =? 0)%nat; [reflexivity |].
    destruct (contains CONFIG_DELIMITER before) eqn:Hd; cbn [negb].
    + destruct (split1_present _ _ Hd) as (key & value & -> & _ & _).
      reflexivity.
    + reflexivity.
  - rewrite (split1_absent _ _ Hc). cbn [and_then].
    destruct (List.length (strip is_space line) =? 0)%nat; [reflexivity |].
    destruct (contains CONFIG_DELIMITER line) eqn:Hd; cbn [negb].
    + destruct (split1_present _ _ Hd) as (key & value & -> & _ & _).
      reflexivity.
    + reflexivity.
Qed.

Lemma parse_lines_app (pre post : list str) :
  forall (line_no : Z) (settings : dict str),
    parse_lines is_space line_no (pre ++ post) settings =
      and_then (parse_lines is_space line_no pre settings)
               (parse_lines is_space (line_no + Z.of_nat (List.length pre)) post).
Proof.
  induction pre as [| line pre IH]; intros line_no settings.
  - cbn. f_equal. lia.
  - cbn [app parse_lines List.length].
    destruct (parse_line is_space line_no line settings) as [s' | e];
      cbn [and_then]; [| reflexivity].
    rewrite IH. f_equal. f_equal. lia.
Qed.

(** Lines that are blank or carry a delimiter never raise, and a returned
    dict does not depend on where the numbering starts. *)
Lemma parse_lines_well_formed (lines : list str) :
  Forall (fun l => is_blank is_space l = true \/ has_delimiter l = true) lines ->
  forall (line_no : Z) (settings : dict str),
  exists d, forall n, parse_lines is_space n lines settings = Return d.
Proof.
  induction lines as [| line lines IH]; intros Hall line_no settings.
  - exists settings. reflexivity.
  - inversion Hall as [| ? ? Hline Hrest]; subst.
    assert (Hstep : exists s', forall n,
               parse_line is_space n line settings = Return s').
    { destruct (is_blank is_space line) eqn:Hb.
      - exists settings. intros n. now rewrite parse_line_cases, Hb.
      - destruct Hline as [Hline | Hline]; [discriminate |].
        eexists. intros n. rewrite parse_line_cases, Hb, Hline.
        reflexivity. }
    destruct Hstep as [s' Hs'].
    destruct (IH Hrest line_no s') as [d Hd].
    exists d. intros n. cbn [parse_lines]. rewrite Hs'. cbn [and_then].
    apply Hd.
Qed.

(** X15: [_parse_config] raises exactly on a file with a line that is
    neither blank (comment removed) nor has a delimiter before its
    comment, and the error then carries the number, counted from 1, of the
    first such line and the message 'No delimiter found'. *)
Theorem parse_config_syntax_error (config_file : list str) :
  (Forall (fun l => is_blank is_space l = true \/ has_delimiter l = true)
          config_file ->
   exists d, _parse_config is_space config_file = Return d) /\
  (forall pre line post,
     config_file = pre ++ line :: post ->
     Forall (fun l => is_blank is_space l = true \/ has_delimiter l = true)
            pre ->
     is_blank is_space line = false ->
     has_delimiter line = false ->
     _parse_config is_space config_file =
       Throw (ConfigSyntaxError (Z.of_nat (List.length pre) + 1)
                                no_delimiter_found)).
Proof.
  split.
  - intros Hall.
    destruct (parse_lines_well_formed config_file Hall 0 []) as [d Hd].
    exists d. apply Hd.
  - intros pre line post -> Hpre Hb Hd. unfold _parse_config.
    rewrite parse_lines_app.
    destruct (parse_lines_well_formed pre Hpre 0 []) as [d Hpre'].
    rewrite Hpre'. cbn [and_then parse_lines].
    now rewrite parse_line_cases, Hb, Hd.
Qed.

Lemma parse_lines_return_any_start (lines : list str) :
  forall (n n' : Z) (settings d : dict str),
    parse_lines is_space n lines settings = Return d ->
    parse_lines is_space n' lines settings = Return d.
Proof.
  induction lines as [| line lines IH]; intros n n' settings d; cbn [parse_lines].
  - trivial.
  - rewrite !parse_line_cases.
    destruct (is_blank is_space line); cbn [and_then]; [apply IH |].
    destruct (has_delimiter line); cbn [and_then]; [apply IH | discriminate].
Qed.

(** X16: a line with nothing but whitespace before its comment, if any,
    can be taken out of a file, or put into it, without changing the dict
    the parser returns. *)
Theorem blank_lines_are_ignored (pre post : list str) (line : str)
  (d : dict str) :
  is_blank is_space line = true ->
  _parse_config is_space (pre ++ line :: post) = Return d <->
  _parse_config is_space (pre ++ post) = Return d.
Proof.
  intros Hb. unfold _parse_config. rewrite !parse_lines_app.
  destruct (parse_lines is_space 0 pre []) as [s' | e]; cbn [and_then];
    [| tauto].
  cbn [parse_lines]. rewrite parse_line_cases, Hb. cbn [and_then].
  split; apply parse_lines_return_any_start.
Qed.

Lemma parse_lines_keeps_other_keys (key : str) (lines : list str) :
  Forall (fun l => is_blank is_space l = true \/
                   fst (assignment is_space l) <> key) lines ->
  forall (n : Z) (settings d : dict str),
    parse_lines is_space n lines settings = Return d ->
    dict_get key d = dict_get key settings.
Proof.
  induction lines as [| line lines IH]; intros Hall n settings d;
    cbn [parse_lines].
  - intros [= <-]. reflexivity.
  - inversion Hall as [| ? ? Hline Hrest]; subst.
    rewrite parse_line_cases.
    destruct (is_blank is_space line) eqn:Hb; cbn [and_then];
      [now apply IH |].
    destruct Hline as [Hline | Hline]; [discriminate |].
    destruct (has_delimiter line); cbn [and_then]; [| discriminate].
    intros Hd. rewrite (IH Hrest _ _ _ Hd).
    apply dict_get_set_other. congruence.
Qed.

(** X17: in the dict the parser returns, a key holds the value of the
    last line that assigns it: a line with a delimiter gives its key its
    value unless a later line has the same key. *)
Theorem last_assignment_wins (pre post : list str) (line : str)
  (d : dict str) :
  _parse_config is_space (pre ++ line :: post) = Return d ->
  is_blank is_space line = false ->
  Forall (fun l => is_blank is_space l = true \/
                   fst (assignment is_space l)
                     <> fst (assignment is_space line)) post ->
  dict_get (fst (assignment is_space line)) d =
    Some (snd (assignment is_space line)).
Proof.
  unfold _parse_config. rewrite parse_lines_app.
  destruct (parse_lines is_space 0 pre []) as [s' | e]; cbn [and_then];
    [| discriminate].
  cbn [parse_lines]. rewrite parse_line_cases.
  intros Hd Hb Hpost. rewrite Hb in Hd.
  destruct (has_delimiter line); cbn [and_then] in Hd; [| discriminate].
  rewrite (parse_lines_keeps_other_keys _ post Hpost _ _ _ Hd).
  apply dict_get_set_same.
Qed.

(** *** What [strip] leaves *)

Lemma lstrip_length (s : str) :
  (List.length (lstrip is_space s) <= List.length s)%nat.
Proof.
  induction s as [| x s IH]; cbn; [lia |].
  destruct (is_space x); cbn; lia.
Qed.

Lemma lstrip_idem (s : str) :
  lstrip is_space (lstrip is_space s) = lstrip is_space s.
Proof.
  induction s as [| x s IH]; cbn; [reflexivity |].
  destruct (is_space x) eqn:Hx; [exact IH |]. cbn. now rewrite Hx.
Qed.

Lemma lstrip_fixed (s : str) :
  lstrip is_space s = s ->
  s = [] \/ exists x t, s = x :: t /\ is_space x = false.
Proof.
  destruct s as [| x t]; [now left |]. cbn.
  destruct (is_space x) eqn:Hx.
  - intros Heq. pose proof (lstrip_length t) as Hlen.
    rewrite Heq in Hlen. cbn in Hlen. lia.
  - intros _. right. now exists x, t.
Qed.

Lemma lstrip_snoc (a : str) (x : Ascii.ascii) :
  is_space x = false -> exists u, lstrip is_space (a ++ [x]) = u ++ [x].
Proof.
  intros Hx. induction a as [| y a IH]; cbn.
  - rewrite Hx. now exists [].
  - destruct (is_space y); [exact IH |]. now exists (y :: a).
Qed.

Lemma strip_idem (s : str) :
  strip is_space (strip is_space s) = strip is_space s.
Proof.
  unfold strip, rstrip.
  set (t := lstrip is_space s).
  assert (Hhead : lstrip is_space (rev (lstrip is_space (rev t))) =
                  rev (lstrip is_space (rev t))).
  { destruct (lstrip_fixed t (lstrip_idem s)) as [-> | (x & t' & -> & Hx)].
    - reflexivity.
    - cbn [rev]. destruct (lstrip_snoc (rev t') x Hx) as [u ->].
      rewrite rev_app_distr. cbn. now rewrite Hx. }
  rewrite Hhead, rev_involutive, lstrip_idem. reflexivity.
Qed.

Lemma contains_app (c : Ascii.ascii) (a b : str) :
  contains c (a ++ b) = contains c a || contains c b.
Proof. unfold contains. apply existsb_app. Qed.

Lemma contains_rev (c : Ascii.ascii) (s : str) :
  contains c (rev s) = contains c s.
Proof.
  induction s as [| x s IH]; [reflexivity |].
  cbn [rev]. rewrite contains_app, IH. unfold contains. cbn.
  now rewrite orb_false_r, orb_comm.
Qed.

Lemma contains_lstrip (c : Ascii.ascii) (s : str) :
  contains c s = false -> contains c (lstrip is_space s) = false.
Proof.
  unfold contains. induction s as [| x s IH]; cbn; [trivial |].
  rewrite orb_false_iff. intros [Hx Hs].
  destruct (is_space x); [now apply IH |]. cbn. now rewrite Hx, Hs.
Qed.

Lemma contains_strip (c : Ascii.ascii) (s : str) :
  contains c s = false -> contains c (strip is_space s) = false.
Proof.
  intros Hs. unfold strip, rstrip.
  rewrite contains_rev. apply contains_lstrip.
  rewrite contains_rev. now apply contains_lstrip.
Qed.

Lemma assignment_well_formed (line : str) :
  has_delimiter line = true ->
  well_formed_entry is_space (assignment is_space line).
Proof.
  unfold has_delimiter, assignment. intros Hd.
  pose proof (code_part_no_comment line) as Hc.
  destruct (split1_present _ _ Hd) as (key & value & -> & Hline & Hfree).
  rewrite Hline, contains_app in Hc. cbn in Hc.
  apply orb_false_iff in Hc as [Hkey Hvalue].
  unfold well_formed_entry. cbn [fst snd].
  repeat split; auto using strip_idem, contains_strip.
Qed.

Lemma parse_lines_entries (lines : list str) :
  forall (n : Z) (settings d : dict str),
    NoDup (map fst settings) ->
    Forall (well_formed_entry is_space) settings ->
    parse_lines is_space n lines settings = Return d ->
    NoDup (map fst d) /\ Forall (well_formed_entry is_space) d.
Proof.
  induction lines as [| line lines IH]; intros n settings d Hnd Hall;
    cbn [parse_lines].
  - intros [= <-]. now split.
  - rewrite parse_line_cases.
    destruct (is_blank is_space line); cbn [and_then]; [now apply IH |].
    destruct (has_delimiter line) eqn:Hd; cbn [and_then]; [| discriminate].
    apply IH.
    + now apply dict_set_NoDup.
    + apply Forall_forall. intros kv Hin.
      apply dict_set_In in Hin as [Hin | ->].
      * rewrite Forall_forall in Hall. now apply Hall.
      * rewrite <- surjective_pairing. now apply assignment_well_formed.
Qed.

Lemma parse_config_NoDup (config_file : list str) (d : dict str) :
  _parse_config is_space config_file = Return d -> NoDup (map fst d).
Proof.
  intros Hd.
  destruct (parse_lines_entries config_file 0 [] d) as [Hnd _];
    [constructor | constructor | exact Hd | exact Hnd].
Qed.

(** X18: in the dict the parser returns every key occurs once; keys and
    values carry no whitespace at either end ([strip] leaves them as they
    are) and no comment character, and a key holds no delimiter (a value
    may). *)
Theorem parse_config_entries (config_file : list str) (d : dict str) :
  _parse_config is_space config_file = Return d ->
  NoDup (map fst d) /\
  forall key value, In (key, value) d ->
    strip is_space key = key /\
    strip is_space value = value /\
    contains CONFIG_DELIMITER key = false /\
    contains CONFIG_COMMENT_CHAR key = false /\
    contains CONFIG_COMMENT_CHAR value = false.
Proof.
  intros Hd.
  destruct (parse_lines_entries config_file 0 [] d) as [Hnd Hall];
    [constructor | constructor | exact Hd |].
  split; [exact Hnd |]. intros key value Hin.
  rewrite Forall_forall in Hall. exact (Hall (key, value) Hin).
Qed.

End Parser.

(** ** Loading settings *)

Section LoadFacts.

Variable is_space : Ascii.ascii -> bool.
Context {V : Type}.

Lemma dict_update_NoDup {A : Type} (other d : dict A) :
  NoDup (map fst d) -> NoDup (map fst (dict_update d other)).
Proof.
  unfold dict_update. revert d.
  induction other as [| [k v] other IH]; intros d Hd; cbn; [exact Hd |].
  apply IH. now apply dict_set_NoDup.
Qed.

(** [update] lets the entries of [other] win. *)
Lemma dict_get_update {A : Type} (key : str) (other d : dict A) :
  NoDup (map fst other) ->
  dict_get key (dict_update d other) =
    match dict_get key other with
    | Some v => Some v
    | None => dict_get key d
    end.
Proof.
  unfold dict_update. revert d.
  induction other as [| [k v] other IH]; intros d Hnd; cbn; [reflexivity |].
  inversion Hnd as [| ? ? Hk Hrest]; subst.
  rewrite (IH _ Hrest).
  destruct (str_eqb key k) eqn:Heq.
  - apply str_eqb_eq in Heq. subst k.
    apply dict_get_none_keys in Hk. rewrite Hk.
    apply dict_get_set_same.
  - destruct (dict_get key other); [reflexivity |].
    apply dict_get_set_other. intros ->.
    rewrite str_eqb_refl in Heq. discriminate.
Qed.

Lemma default_strings_fold (definitions : dict (SettingDefinition V)) :
  forall acc : dict str,
    NoDup (map fst acc) ->
    let strings :=
      fold_left
        (fun acc kd =>
           match default (snd kd) with
           | Some s => dict_set (fst kd) s acc
           | None => acc
           end) definitions acc in
    NoDup (map fst strings) /\
    (NoDup (map fst definitions) ->
     forall key,
       dict_get key strings =
         match dict_get key definitions with
         | Some setting =>
             match default setting with
             | Some s => Some s
             | None => dict_get key acc
             end
         | None => dict_get key acc
         end).
Proof.
  induction definitions as [| [k setting] definitions IH]; intros acc Hacc;
    cbn [fold_left fst snd].
  - split; [exact Hacc | reflexivity].
  - set (acc' := match default setting with
                 | Some s => dict_set k s acc
                 | None => acc
                 end).
    assert (Hacc' : NoDup (map fst acc')).
    { unfold acc'. destruct (default setting); [| exact Hacc].
      now apply dict_set_NoDup. }
    destruct (IH acc' Hacc') as [Hnd Hget]. split; [exact Hnd |].
    intros Hdefs key. inversion Hdefs as [| ? ? Hk Hrest]; subst.
    rewrite (Hget Hrest). cbn [dict_get].
    destruct (str_eqb key k) eqn:Heq.
    + apply str_eqb_eq in Heq. subst k.
      apply dict_get_none_keys in Hk. rewrite Hk. unfold acc'.
      destruct (default setting); [apply dict_get_set_same | reflexivity].
    + assert (Hother : dict_get key acc' = dict_get key acc).
      { unfold acc'. destruct (default setting); [| reflexivity].
        apply dict_get_set_other. intros ->.
        rewrite str_eqb_refl in Heq. discriminate. }
      rewrite Hother. reflexivity.
Qed.

Lemma default_strings_get (definitions : dict (SettingDefinition V)) :
  NoDup (map fst (default_strings definitions)) /\
  (NoDup (map fst definitions) ->
   forall key,
     dict_get key (default_strings definitions) =
       match dict_get key definitions with
       | Some setting => default setting
       | None => None
       end).
Proof.
  destruct (default_strings_fold definitions []) as [Hnd Hget];
    [constructor |].
  split; [exact Hnd |]. intros Hdefs key.
  unfold default_strings. rewrite (Hget Hdefs). cbn [dict_get].
  destruct (dict_get key definitions) as [setting |]; [| reflexivity].
  now destruct (default setting).
Qed.

Lemma parse_values_get (definitions : dict (SettingDefinition V))
  (items : list (str * str)) :
  forall acc values,
    NoDup (map fst items) ->
    parse_values items definitions acc = Return values ->
    forall key,
      dict_get key values =
        match dict_get key items with
        | Some s =>
            match dict_get key definitions with
            | Some setting => parser setting s
            | None => None
            end
        | None => dict_get key acc
        end.
Proof.
  induction items as [| [k s] items IH]; intros acc values Hnd;
    cbn [parse_values].
  - intros [= <-] key. reflexivity.
  - inversion Hnd as [| ? ? Hk Hrest]; subst.
    destruct (dict_get k definitions) as [setting |] eqn:Hsetting;
      [| discriminate].
    destruct (parser setting s) as [value |] eqn:Hvalue; [| discriminate].
    intros Hvalues key. rewrite (IH _ _ Hrest Hvalues). cbn [dict_get].
    destruct (str_eqb key k) eqn:Heq.
    + apply str_eqb_eq in Heq. subst k.
      apply dict_get_none_keys in Hk. rewrite Hk, Hsetting, Hvalue.
      apply dict_get_set_same.
    + destruct (dict_get key items); [reflexivity |].
      apply dict_get_set_other. intros ->.
      rewrite str_eqb_refl in Heq. discriminate.
Qed.

(** X19: when [load] returns, each key of the definitions holds the
    parsed form of the argument given for it, else of the value the config
    file assigns it, else of its default, and is absent when it has none
    of the three; no other key is present. *)
Theorem load_precedence
  (args : option (dict str)) (config_file : option (list str))
  (definitions : dict (SettingDefinition V)) (values : dict V) :
  NoDup (map fst definitions) ->
  NoDup (map fst (or_empty args)) ->
  load is_space args config_file definitions = Return values ->
  exists config,
    match config_file with
    | Some file => _parse_config is_space file = Return config
    | None => config = []
    end /\
    forall key,
      dict_get key values =
        match dict_get key definitions with
        | Some setting =>
            match effective_string key (or_empty args) config setting with
            | Some s => parser setting s
            | None => None
            end
        | None => None
        end.
Proof.
  intros Hdefs Hargs. unfold load.
  destruct (default_strings_get definitions) as [Hnd0 Hget0].
  specialize (Hget0 Hdefs).
  set (strings0 := default_strings definitions) in *.
  assert (Hconfig : forall strings1,
            match config_file with
            | Some file =>
                and_then (_parse_config is_space file) (fun config_settings =>
                and_then (check_keys (map fst config_settings) definitions)
                  (fun _ => Return (dict_update strings0 config_settings)))
            | None => Return strings0
            end = Return strings1 ->
            exists config,
              match config_file with
              | Some file => _parse_config is_space file = Return config
              | None => config = []
              end /\
              NoDup (map fst config) /\
              strings1 = dict_update strings0 config).
  { intros strings1. destruct config_file as [file |].
    - destruct (_parse_config is_space file) as [config |] eqn:Hparse;
        cbn [and_then]; [| discriminate].
      destruct (check_keys (map fst config) definitions); cbn [and_then];
        [| discriminate].
      intros [= <-]. exists config. split; [reflexivity |].
      split; [| reflexivity].
      exact (parse_config_NoDup is_space file config Hparse).
    - intros [= <-]. exists []. repeat split. constructor. }
  destruct (match config_file with
            | Some file => _
            | None => Return strings0
            end) as [strings1 |] eqn:Hstage1; cbn [and_then];
    [| discriminate].
  destruct (Hconfig strings1 eq_refl) as (config & Hfile & Hndc & ->).
  intros Hload. exists config. split; [exact Hfile |].
  set (strings1 := dict_update strings0 config) in *.
  assert (Hstage2 : exists strings2,
            strings2 = dict_update strings1 (or_empty args) /\
            parse_values strings2 definitions [] = Return values).
  { destruct args as [a |]; cbn [or_empty].
    - destruct (check_keys (map fst a) definitions); cbn [and_then] in Hload;
        [| discriminate].
      eexists. split; [reflexivity | exact Hload].
    - exists strings1. split; [reflexivity | exact Hload]. }
  destruct Hstage2 as (strings2 & -> & Hvalues).
  intros key.
  rewrite (parse_values_get _ _ _ _
             (dict_update_NoDup _ _ (dict_update_NoDup _ _ Hnd0)) Hvalues).
  rewrite (dict_get_update key _ _ Hargs). unfold strings1.
  rewrite (dict_get_update key _ _ Hndc), Hget0.
  unfold effective_string. cbn [dict_get].
  destruct (dict_get key definitions) as [setting |];
    destruct (dict_get key (or_empty args));
    destruct (dict_get key config); reflexivity.
Qed.

Lemma parse_lines_throw (lines : list str) :
  forall (n : Z) (settings : dict str) (e : error),
    parse_lines is_space n lines settings = Throw e ->
    exists pre line post,
      lines = pre ++ line :: post /\
      is_blank is_space line = false /\
      has_delimiter line = false /\
      e = ConfigSyntaxError (n + Z.of_nat (List.length pre) + 1)
                            no_delimiter_found.
Proof.
  induction lines as [| line lines IH]; intros n settings e;
    cbn [parse_lines]; [discriminate |].
  rewrite parse_line_cases.
  assert (Hrest : forall s',
             parse_lines is_space (n + 1) lines s' = Throw e ->
             exists pre line0 post,
               line :: lines = pre ++ line0 :: post /\
               is_blank is_space line0 = false /\
               has_delimiter line0 = false /\
               e = ConfigSyntaxError (n + Z.of_nat (List.length pre) + 1)
                                     no_delimiter_found).
  { intros s' Hthrow.
    destruct (IH _ _ _ Hthrow) as (pre & line0 & post & -> & Hb & Hd & ->).
    exists (line :: pre), line0, post. repeat split; try assumption.
    cbn [List.length]. f_equal. lia. }
  destruct (is_blank is_space line) eqn:Hb; cbn [and_then]; [apply Hrest |].
  destruct (has_delimiter line) eqn:Hd; cbn [and_then]; [apply Hrest |].
  intros [= <-]. exists [], line, lines. repeat split; try assumption.
  cbn [List.length]. f_equal. lia.
Qed.

Lemma check_keys_return (definitions : dict (SettingDefinition V))
  (keys : list str) (u : unit) :
  check_keys keys definitions = Return u ->
  forall key, In key keys -> dict_mem key definitions = true.
Proof.
  induction keys as [| k keys IH]; cbn [check_keys]; [intros _ key [] |].
  destruct (dict_mem k definitions) eqn:Hk; cbn [negb]; [| discriminate].
  intros Hrest key [<- | Hin]; [exact Hk | now apply IH].
Qed.

Lemma check_keys_throw (definitions : dict (SettingDefinition V))
  (keys : list str) (e : error) :
  check_keys keys definitions = Throw e ->
  exists key, In key keys /\ dict_mem key definitions = false /\
              e = SettingKeyError (unknown_setting key).
Proof.
  induction keys as [| k keys IH]; cbn [check_keys]; [discriminate |].
  destruct (dict_mem k definitions) eqn:Hk; cbn [negb].
  - intros Hrest. destruct (IH Hrest) as (key & Hin & Hmem & ->).
    exists key. repeat split; [now right | exact Hmem].
  - intros [= <-]. exists k. repeat split; [now left | exact Hk].
Qed.

Lemma parse_values_throw (definitions : dict (SettingDefinition V))
  (items : list (str * str)) :
  forall (acc : dict V) (e : error),
    parse_values items definitions acc = Throw e ->
    exists key s,
      In (key, s) items /\
      ((e = KeyError key /\ dict_get key definitions = None) \/
       (e = ValueError /\
        exists setting, dict_get key definitions = Some setting /\
                        parser setting s = None)).
Proof.
  induction items as [| [k s] items IH]; intros acc e; cbn [parse_values];
    [discriminate |].
  destruct (dict_get k definitions) as [setting |] eqn:Hsetting.
  - destruct (parser setting s) as [value |] eqn:Hvalue.
    + intros Hrest. destruct (IH _ _ Hrest) as (key & s' & Hin & Hwhy).
      exists key, s'. split; [now right | exact Hwhy].
    + intros [= <-]. exists k, s. split; [now left |]. right.
      split; [reflexivity |]. now exists setting.
  - intros [= <-]. exists k, s. split; [now left |]. now left.
Qed.

Lemma dict_get_In {A : Type} (key : str) (value : A) (d : dict A) :
  NoDup (map fst d) -> In (key, value) d -> dict_get key d = Some value.
Proof.
  induction d as [| [k v] d IH]; cbn; [intros _ [] |].
  intros Hnd Hin. inversion Hnd as [| ? ? Hk Hrest]; subst.
  destruct Hin as [[= -> ->] | Hin]; [now rewrite str_eqb_refl |].
  destruct (str_eqb key k) eqn:Heq; [| now apply IH].
  apply str_eqb_eq in Heq. subst k. exfalso. apply Hk.
  apply in_map_iff. now exists (key, value).
Qed.

Lemma dict_get_some_key {A : Type} (key : str) (value : A) (d : dict A) :
  dict_get key d = Some value -> In key (map fst d).
Proof.
  intros Hget. destruct (in_dec (list_eq_dec Ascii.ascii_dec) key (map fst d))
    as [Hin | Hnot]; [exact Hin |].
  apply dict_get_none_keys in Hnot. congruence.
Qed.

(** The ways in which [load] fails, read off the error it raises. *)
Lemma load_throw_inv
  (args : option (dict str)) (config_file : option (list str))
  (definitions : dict (SettingDefinition V)) (e : error) :
  NoDup (map fst definitions) ->
  NoDup (map fst (or_empty args)) ->
  load is_space args config_file definitions = Throw e ->
  match e with
  | ConfigSyntaxError line_no msg =>
      exists file,
        config_file = Some file /\
        _parse_config is_space file = Throw e /\
        msg = no_delimiter_found /\
        1 <= line_no <= Z.of_nat (List.length file)
  | SettingKeyError msg =>
      exists key config,
        msg = unknown_setting key /\
        dict_mem key definitions = false /\
        match config_file with
        | Some file => _parse_config is_space file = Return config
        | None => config = []
        end /\
        (In key (map fst config) \/ In key (map fst (or_empty args)))
  | ValueError =>
      exists key setting s config,
        dict_get key definitions = Some setting /\
        match config_file with
        | Some file => _parse_config is_space file = Return config
        | None => config = []
        end /\
        effective_string key (or_empty args) config setting = Some s /\
        parser setting s = None
  | UnpackError => False
  | KeyError _ => False
  end.
Proof.
  intros Hdefs Hargs. unfold load.
  destruct (default_strings_get definitions) as [Hnd0 Hget0].
  specialize (Hget0 Hdefs).
  set (strings0 := default_strings definitions) in *.
  (* the config file *)
  assert (Hstage1 :
            (exists file e1, config_file = Some file /\
                             _parse_config is_space file = Throw e1) \/
            exists config,
              match config_file with
              | Some file => _parse_config is_space file = Return config
              | None => config = []
              end /\ NoDup (map fst config)).
  { destruct config_file as [file |].
    - destruct (_parse_config is_space file) as [config | e1] eqn:Hparse.
      + right. exists config. split; [reflexivity |].
        exact (parse_config_NoDup is_space file config Hparse).
      + left. now exists file, e1.
    - right. exists []. split; [reflexivity | constructor]. }
  destruct Hstage1 as [(file & e1 & -> & Hparse) | (config & Hfile & Hndc)].
  { rewrite Hparse. cbn [and_then]. intros [= <-].
    destruct (parse_lines_throw _ _ _ _ Hparse)
      as (pre & line & post & Hlines & _ & _ & ->).
    exists file. repeat split; try assumption; try lia.
    rewrite Hlines, length_app. cbn [List.length]. lia. }
  assert (Hstage1 :
            match config_file with
            | Some file =>
                and_then (_parse_config is_space file) (fun config_settings =>
                and_then (check_keys (map fst config_settings) definitions)
                  (fun _ => Return (dict_update strings0 config_settings)))
            | None => Return strings0
            end =
            and_then (check_keys (map fst config) definitions)
              (fun _ => Return (dict_update strings0 config))).
  { destruct config_file as [file |]; [now rewrite Hfile | now subst config]. }
  rewrite Hstage1. clear Hstage1.
  destruct (check_keys (map fst config) definitions) as [u1 | e1] eqn:Hcheck1;
    cbn [and_then].
  2: { intros [= <-].
       destruct (check_keys_throw _ _ _ Hcheck1) as (key & Hin & Hmem & ->).
       exists key, config. repeat split; try assumption. now left. }
  pose proof (check_keys_return _ _ _ Hcheck1) as Hknown1.
  set (strings1 := dict_update strings0 config).
  (* the arguments *)
  assert (Hstage2 :
            match args with
            | Some a =>
                and_then (check_keys (map fst a) definitions)
                  (fun _ => Return (dict_update strings1 a))
            | None => Return strings1
            end =
            and_then (check_keys (map fst (or_empty args)) definitions)
              (fun _ => Return (dict_update strings1 (or_empty args)))).
  { now destruct args. }
  rewrite Hstage2. clear Hstage2.
  destruct (check_keys (map fst (or_empty args)) definitions)
    as [u2 | e2] eqn:Hcheck2; cbn [and_then].
  2: { intros [= <-].
       destruct (check_keys_throw _ _ _ Hcheck2) as (key & Hin & Hmem & ->).
       exists key, config. repeat split; try assumption. now right. }
  pose proof (check_keys_return _ _ _ Hcheck2) as Hknown2.
  set (strings2 := dict_update strings1 (or_empty args)).
  assert (Hnd2 : NoDup (map fst strings2))
    by (apply dict_update_NoDup, dict_update_NoDup, Hnd0).
  assert (Hget2 : forall key,
            dict_get key strings2 =
              match dict_get key (or_empty args) with
              | Some s => Some s
              | None =>
                  match dict_get key config with
                  | Some s => Some s
                  | None =>
                      match dict_get key definitions with
                      | Some setting => default setting
                      | None => None
                      end
                  end
              end).
  { intros key. unfold strings2, strings1.
    now rewrite (dict_get_update key _ _ Hargs),
                (dict_get_update key _ _ Hndc), Hget0. }
  (* the parsers *)
  intros Hvalues.
  destruct (parse_values_throw _ _ _ _ Hvalues)
    as (key & s & Hin & [[-> Hnone] | [-> (setting & Hsetting & Hreject)]]).
  - pose proof (dict_get_In _ _ _ Hnd2 Hin) as Hs. rewrite Hget2 in Hs.
    assert (Hmem : dict_mem key definitions = true -> False)
      by (unfold dict_mem; now rewrite Hnone).
    destruct (dict_get key (or_empty args)) eqn:Ha.
    { apply Hmem, Hknown2. eapply dict_get_some_key, Ha. }
    destruct (dict_get key config) eqn:Hc.
    { apply Hmem, Hknown1. eapply dict_get_some_key, Hc. }
    rewrite Hnone in Hs. discriminate.
  - exists key, setting, s, config.
    split; [exact Hsetting |]. split; [exact Hfile |].
    split; [| exact Hreject].
    pose proof (dict_get_In _ _ _ Hnd2 Hin) as Hs. rewrite Hget2 in Hs.
    unfold effective_string. now rewrite Hsetting in Hs.
Qed.

(** X20: what [load] can raise once the lines of the config file have
    been read (reading the file is not part of this model, so an [IOError]
    of the read is not covered).  A syntax error is the one of the config
    file, with the number of a line of the file; a key error names a key
    of the config file or of the arguments that the definitions lack; a
    value error comes from the parser of a defined setting rejecting the
    string that [load] chose for it.  No unpacking and no dict lookup
    fails. *)
Theorem load_errors
  (args : option (dict str)) (config_file : option (list str))
  (definitions : dict (SettingDefinition V)) (e : error) :
  NoDup (map fst definitions) ->
  NoDup (map fst (or_empty args)) ->
  load is_space args config_file definitions = Throw e ->
  match e with
  | ConfigSyntaxError line_no msg =>
      exists file,
        config_file = Some file /\
        _parse_config is_space file = Throw e /\
        msg = no_delimiter_found /\
        1 <= line_no <= Z.of_nat (List.length file)
  | SettingKeyError msg =>
      exists key config,
        msg = unknown_setting key /\
        dict_mem key definitions = false /\
        match config_file with
        | Some file => _parse_config is_space file = Return config
        | None => config = []
        end /\
        (In key (map fst config) \/ In key (map fst (or_empty args)))
  | ValueError =>
      exists key setting s config,
        dict_get key definitions = Some setting /\
        match config_file with
        | Some file => _parse_config is_space file = Return config
        | None => config = []
        end /\
        effective_string key (or_empty args) config setting = Some s /\
        parser setting s = None
  | UnpackError => False
  | KeyError _ => False
  end.
Proof. intros Hdefs Hargs Hload. now apply load_throw_inv. Qed.

(** X21: [load] returns a dict whenever the config file, if one is given,
    parses, every key of the file and of the arguments is defined, and
    the parser of each defined setting accepts the string chosen for it. *)
Theorem load_returns
  (args : option (dict str)) (config_file : option (list str))
  (definitions : dict (SettingDefinition V)) (config : dict str) :
  NoDup (map fst definitions) ->
  NoDup (map fst (or_empty args)) ->
  match config_file with
  | Some file => _parse_config is_space file = Return config
  | None => config = []
  end ->
  (forall key, In key (map fst config) -> dict_mem key definitions = true) ->
  (forall key, In key (map fst (or_empty args)) ->
               dict_mem key definitions = true) ->
  (forall key setting s,
     dict_get key definitions = Some setting ->
     effective_string key (or_empty args) config setting = Some s ->
     parser setting s <> None) ->
  exists values, load is_space args config_file definitions = Return values.
Proof.
  intros Hdefs Hargs Hfile Hknown1 Hknown2 Hparsers.
  destruct (load is_space args config_file definitions) as [values | e]
    eqn:Hload; [now exists values |].
  exfalso. pose proof (load_throw_inv _ _ _ _ Hdefs Hargs Hload) as Hwhy.
  assert (Hsame : forall config',
            match config_file with
            | Some file => _parse_config is_space file = Return config'
            | None => config' = []
            end -> config' = config).
  { intros config' Hfile'. destruct config_file; congruence. }
  destruct e as [line_no msg | msg | | |].
  - destruct Hwhy as (file & -> & Hthrow & _). congruence.
  - destruct Hwhy as (key & config' & _ & Hmem & Hfile' & Hin).
    rewrite (Hsame _ Hfile') in Hin.
    destruct Hin as [Hin | Hin];
      [rewrite (Hknown1 _ Hin) in Hmem | rewrite (Hknown2 _ Hin) in Hmem];
      discriminate.
  - destruct Hwhy as (key & setting & s & config' & Hsetting & Hfile' & Hs
                      & Hreject).
    rewrite (Hsame _ Hfile') in Hs.
    exact (Hparsers _ _ _ Hsetting Hs Hreject).
  - exact Hwhy.
  - exact Hwhy.
Qed.

End LoadFacts.

Import Ascii String.
(** *** The theorems at a sample file *)

Ltac lines_ok :=
  repeat (apply Forall_cons;
          [first [left; reflexivity | right; reflexivity
                 | right; vm_compute; discriminate] |]);
  apply Forall_nil.

Lemma parse_config_syntax_error_witness :
  (exists d, _parse_config ascii_space sample_config = Return d) /\
  _parse_config ascii_space broken_config =
    Throw (ConfigSyntaxError
             (Z.of_nat (List.length (firstn 2 broken_config)) + 1)
             no_delimiter_found).
Proof.
  split.
  - apply (parse_config_syntax_error ascii_space sample_config). lines_ok.
  - apply (proj2 (parse_config_syntax_error ascii_space broken_config)
             (firstn 2 broken_config) (nth 2 broken_config [])
             (skipn 3 broken_config));
      [reflexivity | lines_ok | reflexivity | reflexivity].
Defined.

Lemma blank_lines_are_ignored_witness :
  _parse_config ascii_space
    (firstn 2 sample_config ++ nth 2 sample_config [] :: skipn 3 sample_config)
    = Return [(list_ascii_of_string "sample_rate", list_ascii_of_string "2.2e6");
              (list_ascii_of_string "block.size", list_ascii_of_string "4096")]
  <->
  _parse_config ascii_space (firstn 2 sample_config ++ skipn 3 sample_config)
    = Return [(list_ascii_of_string "sample_rate", list_ascii_of_string "2.2e6");
              (list_ascii_of_string "block.size", list_ascii_of_string "4096")].
Proof.
  apply (blank_lines_are_ignored ascii_space). reflexivity.
Defined.

Lemma last_assignment_wins_witness :
  dict_get (fst (assignment ascii_space (nth 4 sample_config [])))
    [(list_ascii_of_string "sample_rate", list_ascii_of_string "2.2e6");
     (list_ascii_of_string "block.size", list_ascii_of_string "4096")] =
    Some (snd (assignment ascii_space (nth 4 sample_config []))).
Proof.
  apply (last_assignment_wins ascii_space (firstn 4 sample_config) []
           (nth 4 sample_config []));
    [reflexivity | reflexivity | apply Forall_nil].
Defined.

Lemma parse_config_entries_witness :
  NoDup (map fst [(list_ascii_of_string "sample_rate", list_ascii_of_string "2.2e6");
                  (list_ascii_of_string "block.size", list_ascii_of_string "4096")]) /\
  forall key value,
    In (key, value)
       [(list_ascii_of_string "sample_rate", list_ascii_of_string "2.2e6");
        (list_ascii_of_string "block.size", list_ascii_of_string "4096")] ->
    strip ascii_space key = key /\
    strip ascii_space value = value /\
    contains CONFIG_DELIMITER key = false /\
    contains CONFIG_COMMENT_CHAR key = false /\
    contains CONFIG_COMMENT_CHAR value = false.
Proof.
  apply (parse_config_entries ascii_space sample_config). reflexivity.
Defined.

Lemma sample_definitions_NoDup : NoDup (map fst sample_definitions).
Proof.
  repeat constructor; cbn; intros Hin;
    repeat (destruct Hin as [Hin | Hin]; [discriminate |]); exact Hin.
Qed.

Lemma load_precedence_witness :
  exists config,
    _parse_config ascii_space sample_config = Return config /\
    forall key,
      dict_get key
        [(list_ascii_of_string "sample_rate", list_ascii_of_string "2.2e6");
         (list_ascii_of_string "block.size", list_ascii_of_string "512")] =
        match dict_get key sample_definitions with
        | Some setting =>
            match effective_string key
                    [(list_ascii_of_string "block.size",
                      list_ascii_of_string "512")] config setting with
            | Some s => parser setting s
            | None => None
            end
        | None => None
        end.
Proof.
  apply (load_precedence ascii_space
           (Some [(list_ascii_of_string "block.size",
                   list_ascii_of_string "512")])
           (Some sample_config) sample_definitions).
  - exact sample_definitions_NoDup.
  - repeat constructor. intros [].
  - reflexivity.
Defined.

Lemma load_errors_witness :
  exists key setting s config,
    dict_get key sample_definitions = Some setting /\
    _parse_config ascii_space sample_config = Return config /\
    effective_string key
      [(list_ascii_of_string "block.size", list_ascii_of_string "4k")]
      config setting = Some s /\
    parser setting s = None.
Proof.
  apply (load_errors ascii_space
           (Some [(list_ascii_of_string "block.size",
                   list_ascii_of_string "4k")])
           (Some sample_config) sample_definitions ValueError).
  - exact sample_definitions_NoDup.
  - repeat constructor. intros [].
  - reflexivity.
Defined.

Lemma load_returns_witness :
  exists values,
    load ascii_space None (Some sample_config) sample_definitions =
      Return values.
Proof.
  apply (load_returns ascii_space None (Some sample_config) sample_definitions
           [(list_ascii_of_string "sample_rate", list_ascii_of_string "2.2e6");
            (list_ascii_of_string "block.size", list_ascii_of_string "4096")]).
  - exact sample_definitions_NoDup.
  - constructor.
  - reflexivity.
  - intros key [<- | [<- | []]]; reflexivity.
  - intros key [].
  - intros key setting s Hsetting.
    cbn [sample_definitions dict_get] in Hsetting.
    destruct (str_eqb key (list_ascii_of_string "sample_rate")) eqn:H1.
    + injection Hsetting as <-. cbn. discriminate.
    + destruct (str_eqb key (list_ascii_of_string "block.size")) eqn:H2;
        [| discriminate].
      apply str_eqb_eq in H2. subst key. injection Hsetting as <-.
      vm_compute. intros [= <-]. discriminate.
Defined.

End SettingsFacts.


(** ** The theorems at sample spectra *)

Section Samples.

Lemma get_window_slice_witness :
  _get_window [1; 2; 3; 4]%float (Some (1, 2)) =
    Ok (firstn (Z.to_nat (2 - 1 + 1)) (skipn (Z.to_nat 1) [1; 2; 3; 4]%float),
        1).
Proof. apply (get_window_slice [1; 2; 3; 4]%float 1 2); cbn; lia. Defined.

Lemma get_window_default_witness :
  _get_window [1; 2]%float None = Ok ([1; 2]%float, 0).
Proof. apply (get_window_default [1; 2]%float). cbn. lia. Defined.

Lemma window_peak_reports_its_bin_witness :
  0 <= 2 <= len [5; 1]%float /\
  5%float = item [5; 1]%float (2 mod len [5; 1]%float).
Proof.
  apply (window_peak_reports_its_bin [5; 1]%float (Some (-1, 0)) 2 5%float).
  reflexivity.
Defined.

Lemma window_peak_inside_plain_window_witness :
  exists start_idx stop_idx,
    fft_range_index 0 2 (len [1; 5; 2]%float) = Ok (start_idx, stop_idx) /\
    start_idx <= 1 <= stop_idx /\
    0 <= 1 < len [1; 5; 2]%float /\
    5%float = item [1; 5; 2]%float 1.
Proof.
  apply (window_peak_inside_plain_window [1; 5; 2]%float 0 2 1 5%float);
    [lia | reflexivity].
Defined.

Lemma filter_shape_witness :
  exists filtered delay,
    _filter [1; 2]%float [1]%float = Ok (filtered, delay) /\
    length filtered = length [1; 2]%float /\
    0 <= delay < len [1]%float.
Proof. apply (filter_shape [1; 2]%float [1]%float). discriminate. Defined.

Lemma detect_empty_filter_witness :
  detect [1; 2]%float (0, 1, 0)%float None (Some []) =
    Raise ArgmaxOfEmptySequence.
Proof.
  apply (detect_empty_filter [1; 2]%float (0, 1, 0)%float None).
  cbn. lia.
Defined.

Lemma window_peak_filtered_range_witness :
  - len [1; 0]%float < -1 <= len [0; 0; 0]%float.
Proof.
  apply (window_peak_filtered_range [0; 0; 0]%float [1; 0]%float None
           (-1) 0%float).
  reflexivity.
Defined.

Local Open Scope R_scope.

Lemma isolated_peak_located_R (k m : nat) (A : R) :
  (1 <= k + m)%nat -> 0 < A ->
  _window_peak (impulse k m A) None None = Ok (Z.of_nat k, A).
Proof.
  intros HL HA. apply window_peak_impulse; [exact HL |].
  apply np_argmax_impulse; cbn [f_leb f_isnan f_of_Z R_Scalar];
    try reflexivity.
  - destruct (Rle_dec 0 0); [reflexivity | lra].
  - destruct (Rle_dec 0 A); [reflexivity | lra].
  - destruct (Rle_dec A 0); [lra | reflexivity].
Qed.

Lemma window_peak_is_first_maximum_witness :
  exists a b m,
    fft_range_index (fst (window_bounds None)) (snd (window_bounds None))
      (len (impulse 1 1 2%R)) = Ok (a, b) /\
    (0 <= m <= b - a)%Z /\
    (1 mod len (impulse 1 1 2%R) = (a + m) mod len (impulse 1 1 2%R))%Z /\
    2 = item (impulse 1 1 2%R) ((a + m) mod len (impulse 1 1 2%R)) /\
    (forall k, (0 <= k <= b - a)%Z ->
       item (impulse 1 1 2%R) ((a + k) mod len (impulse 1 1 2%R)) <= 2) /\
    (forall k, (0 <= k < m)%Z ->
       item (impulse 1 1 2%R) ((a + k) mod len (impulse 1 1 2%R)) < 2).
Proof.
  apply (window_peak_is_first_maximum (impulse 1 1 2%R) None 1 2).
  apply (isolated_peak_located_R 1 1 2); [lia | lra].
Defined.





End Samples.

(** ** The errors of [detect] *)

Section ErrorSurface.

Context {F : Type} `{Scalar F}.

(** C5, amended: [fft_range_index] raises its error exactly when a bound
    has an absolute value of at least the length (so for [start = 1024]
    and for [stop = -1024] with length 1024) and returns otherwise.
    [detect] raises that error exactly when the bounds of its window (0
    and -1 by default) fail the same test against the length of the
    spectrum; it has one other error, the one [np.argmax] raises on an
    empty sequence, exactly when the window is in range and the peak
    filter is an empty array; in every other case it returns a result. *)
Theorem detect_error_surface :
  (forall start stop length : Z,
      (fft_range_index start stop length =
         Raise (FrequencyWindowOutOfRange start stop) <->
       (Z.abs start >= length \/ Z.abs stop >= length)) /\
      ((exists r, fft_range_index start stop length = Ok r) <->
       (Z.abs start < length /\ Z.abs stop < length))) /\
  (forall stop, fft_range_index 1024 stop 1024 =
                  Raise (FrequencyWindowOutOfRange 1024 stop)) /\
  (forall start, fft_range_index start (-1024) 1024 =
                   Raise (FrequencyWindowOutOfRange start (-1024))) /\
  (forall (fft_mag : list F) (thresh_coeffs : F * F * F)
          (window : option (Z * Z)) (peak_filter : option (list F)),
      let start := fst (window_bounds window) in
      let stop := snd (window_bounds window) in
      (detect fft_mag thresh_coeffs window peak_filter =
         Raise (FrequencyWindowOutOfRange start stop) <->
       (Z.abs start >= len fft_mag \/ Z.abs stop >= len fft_mag)) /\
      (detect fft_mag thresh_coeffs window peak_filter =
         Raise ArgmaxOfEmptySequence <->
       ((Z.abs start < len fft_mag /\ Z.abs stop < len fft_mag) /\
        peak_filter = Some [])) /\
      ((exists r, detect fft_mag thresh_coeffs window peak_filter = Ok r) <->
       ((Z.abs start < len fft_mag /\ Z.abs stop < len fft_mag) /\
        peak_filter <> Some []))).
Proof.
  destruct range_error_exactly_when_out_of_range
    as (Hindex & H1024 & Hm1024 & Hfiltered).
  split; [exact Hindex |]. split; [exact H1024 |]. split; [exact Hm1024 |].
  intros fft_mag thresh_coeffs window peak_filter start stop.
  assert (Hout : Z.abs start >= len fft_mag \/ Z.abs stop >= len fft_mag ->
                 detect fft_mag thresh_coeffs window peak_filter =
                   Raise (FrequencyWindowOutOfRange start stop)).
  { intros Hbad. unfold detect, _window_peak.
    now rewrite (get_window_raises fft_mag window Hbad). }
  assert (Hempty : Z.abs start < len fft_mag /\ Z.abs stop < len fft_mag ->
                   detect fft_mag thresh_coeffs window (Some []) =
                     Raise ArgmaxOfEmptySequence).
  { intros [Hs He]. unfold detect, _window_peak.
    destruct (get_window_returns fft_mag window Hs He)
      as (selection & start_idx & Hw & _).
    now rewrite Hw. }
  assert (Hok : Z.abs start < len fft_mag /\ Z.abs stop < len fft_mag ->
                peak_filter <> Some [] ->
                exists r,
                  detect fft_mag thresh_coeffs window peak_filter = Ok r).
  { intros Hin Hpf.
    now apply (proj2 (proj2 (Hfiltered fft_mag thresh_coeffs window
                               peak_filter Hpf))). }
  assert (Hcases :
            (Z.abs start >= len fft_mag \/ Z.abs stop >= len fft_mag) \/
            (Z.abs start < len fft_mag /\ Z.abs stop < len fft_mag)) by lia.
  assert (Hfilter : peak_filter = Some [] \/ peak_filter <> Some []).
  { destruct peak_filter as [[| w ws] |];
      [now left | right; discriminate | right; discriminate]. }
  split; [| split]; split.
  - intros Hr. destruct Hcases as [Hbad | Hin]; [exact Hbad |].
    destruct Hfilter as [-> | Hpf].
    + rewrite (Hempty Hin) in Hr. discriminate.
    + destruct (Hok Hin Hpf) as [r Hr']. rewrite Hr' in Hr. discriminate.
  - exact Hout.
  - intros Hr. destruct Hcases as [Hbad | Hin].
    + rewrite (Hout Hbad) in Hr. discriminate.
    + split; [exact Hin |]. destruct Hfilter as [Hpf | Hpf]; [exact Hpf |].
      destruct (Hok Hin Hpf) as [r Hr']. rewrite Hr' in Hr. discriminate.
  - intros [Hin ->]. exact (Hempty Hin).
  - intros [r Hr]. destruct Hcases as [Hbad | Hin].
    + rewrite (Hout Hbad) in Hr. discriminate.
    + split; [exact Hin |]. intros ->.
      rewrite (Hempty Hin) in Hr. discriminate.
  - intros [Hin Hpf]. exact (Hok Hin Hpf).
Qed.

End ErrorSurface.

Section ErrorSurfaceSamples.

Local Open Scope float_scope.

(** C5, as stated, fails: on the spectrum (1, 2) the default window is in
    range, and with an empty peak filter [detect] still raises, the error
    of [np.argmax] on an empty sequence and not the range error. *)
Lemma empty_filter_raises_another_error :
  (Z.abs 0 < len [1; 2])%Z /\ (Z.abs (-1) < len [1; 2])%Z /\
  detect [1; 2] (0, 1, 0) None (Some []) = Raise ArgmaxOfEmptySequence /\
  detect [1; 2] (0, 1, 0) None (Some [])
    <> Raise (FrequencyWindowOutOfRange 0 (-1)).
Proof.
  repeat split; try reflexivity; try (cbn; lia).
  discriminate.
Qed.

Lemma detect_error_surface_witness :
  fft_range_index 1024 0 1024 = Raise (FrequencyWindowOutOfRange 1024 0) /\
  detect [1; 2] (0, 1, 0) None (Some []) = Raise ArgmaxOfEmptySequence /\
  exists r, detect [3; 1] (0, 1, 0) None (Some [1]) = Ok r.
Proof.
  destruct (@detect_error_surface float float_Scalar)
    as (_ & Hstart & _ & Hdetect).
  split; [apply Hstart |]. split.
  - apply (Hdetect [1; 2] (0, 1, 0) None (Some [])).
    split; [cbn; lia | reflexivity].
  - apply (Hdetect [3; 1] (0, 1, 0) None (Some [1])).
    split; [cbn; lia | discriminate].
Defined.

End ErrorSurfaceSamples.

(** ** The noise estimate of a flat spectrum, and where binary64 leaves it *)

Section FlatSpectrum.

Local Open Scope float_scope.











End FlatSpectrum.

(** ** Raising a threshold coefficient *)

Section ThresholdCoefficients.

Local Open Scope float_scope.





End ThresholdCoefficients.
